(** * go-readline-ny: the Moji layer (moji.go)

    A shallow embedding of [moji.go]: the [Moji] interface with its three
    composite implementations, the cursor helpers, and the composer
    [string2moji] with its inverse [moji2string].

    Conventions.
    - Go's [rune], [int], [int64] and [WidthT] values are integers in [Z];
      a byte is a [Z] in 0..255.  Byte counts and widths stay far below
      2^63 (a value of that size needs as many nodes in memory), so their
      sums are written without wrap-around.
    - An [io.Writer] is a state of some type [W] with a [Write] operation;
      code that writes is a state transformer [io W A].
    - A run-time panic (index out of range) is an explicit outcome.
    - The environment probes that set the capability flags, and the
      string variants [areEmojiModifier] and [areZeroWidthJoin], play no
      part in the functions modelled here; the flags are parameters. *)

From Stdlib Require Import ZArith Lia Bool.
From stdpp Require Import base list.

Local Open Scope Z_scope.

(** ** Go run-time library used by moji.go *)

Definition rune := Z.
Definition byte := Z.

(** [WidthT] is declared elsewhere in the package; a Go integer type. *)
Definition WidthT := Z.

(** [len(x)] as a Go [int]. *)
Definition len {A} (l : list A) : Z := Z.of_nat (length l).

(** [l[i]] as an expression: [None] is the index-out-of-range panic. *)
Definition index {A} (l : list A) (i : Z) : option A :=
  if (0 <=? i) && (i <? len l) then l !! Z.to_nat i else None.

(** [l[i] = x] as a statement: [None] is the index-out-of-range panic. *)
Definition store {A} (l : list A) (i : Z) (x : A) : option (list A) :=
  if (0 <=? i) && (i <? len l) then Some (<[Z.to_nat i := x]> l) else None.

Module utf8.

Definition RuneError : rune := 0xFFFD.
Definition MaxRune : Z := 0x10FFFF.
Definition surrogateMin : Z := 0xD800.
Definition surrogateMax : Z := 0xDFFF.

Definition uint32 (r : Z) : Z := r mod 2 ^ 32.
Definition to_byte (x : Z) : byte := Z.land x 0xFF.

Definition encode3 (r : rune) : list byte :=
  [ Z.lor 0xE0 (to_byte (Z.shiftr r 12));
    Z.lor 0x80 (Z.land (to_byte (Z.shiftr r 6)) 0x3F);
    Z.lor 0x80 (Z.land (to_byte r) 0x3F) ].

(** [utf8.EncodeRune]: the bytes stored for [r]. *)
Definition EncodeRune (r : rune) : list byte :=
  let i := uint32 r in
  if i <=? 0x7F then [ to_byte r ]
  else if i <=? 0x7FF then
    [ Z.lor 0xC0 (to_byte (Z.shiftr r 6));
      Z.lor 0x80 (Z.land (to_byte r) 0x3F) ]
  else if (MaxRune <? i) || ((surrogateMin <=? i) && (i <=? surrogateMax))
  then encode3 RuneError
  else if i <=? 0xFFFF then encode3 r
  else
    [ Z.lor 0xF0 (to_byte (Z.shiftr r 18));
      Z.lor 0x80 (Z.land (to_byte (Z.shiftr r 12)) 0x3F);
      Z.lor 0x80 (Z.land (to_byte (Z.shiftr r 6)) 0x3F);
      Z.lor 0x80 (Z.land (to_byte r) 0x3F) ].

(** The table [first]: information about the first byte of an encoding;
    the first nibble indexes [acceptRanges] or is F for the one-byte
    cases, the second is the length. *)
Definition xx : Z := 0xF1.
Definition as_ : Z := 0xF0.
Definition s1 : Z := 0x02.
Definition s2 : Z := 0x13.
Definition s3 : Z := 0x03.
Definition s4 : Z := 0x23.
Definition s5 : Z := 0x34.
Definition s6 : Z := 0x04.
Definition s7 : Z := 0x44.

Definition first_table : list Z :=
repeat as_ 128 ++ repeat xx 64
++ [xx; xx] ++ repeat s1 30
++ [s2] ++ repeat s3 12 ++ [s4; s3; s3]
++ [s5; s6; s6; s6; s7] ++ repeat xx 11.

Definition first (b : byte) : Z := nth (Z.to_nat b) first_table xx.

Definition locb : Z := 0x80.
Definition hicb : Z := 0xBF.

(** The table [acceptRanges]: bounds of the second byte. *)
Definition acceptRanges (k : Z) : Z * Z :=
nth (Z.to_nat k)
  [(locb, hicb); (0xA0, hicb); (locb, 0x9F); (0x90, hicb); (locb, 0x8F)]
  (0, 0).

(** Conversion of an untyped value to [int32]. *)
Definition int32 (v : Z) : Z := (v + 2 ^ 31) mod 2 ^ 32 - 2 ^ 31.

(** [utf8.DecodeRuneInString]: the first rune of [s] and its width in
    bytes; [(RuneError, 1)] for a malformed encoding.  The reads [s[1]],
    [s[2]], [s[3]] come after the test [n < sz], so the empty-list cases
    of the inner matches are never taken. *)
Definition DecodeRuneInString (s : list byte) : rune * Z :=
let n := len s in
match s with
| [] => (RuneError, 0)
| b0 :: t0 =>
    let x := first b0 in
    if as_ <=? x then
      let mask := Z.shiftr (int32 (Z.shiftl x 31)) 31 in
      (Z.lor (Z.land b0 (Z.lnot mask)) (Z.land RuneError mask), 1)
    else
      let sz := Z.land x 7 in
      let accept := acceptRanges (Z.shiftr x 4) in
      if n <? sz then (RuneError, 1)
      else
        match t0 with
        | [] => (RuneError, 1)
        | b1 :: t1 =>
            if (b1 <? fst accept) || (snd accept <? b1) then (RuneError, 1)
            else if sz <=? 2 then
              (Z.lor (Z.shiftl (Z.land b0 0x1F) 6) (Z.land b1 0x3F), 2)
            else
              match t1 with
              | [] => (RuneError, 1)
              | b2 :: t2 =>
                  if (b2 <? locb) || (hicb <? b2) then (RuneError, 1)
                  else if sz <=? 3 then
                    (Z.lor (Z.lor (Z.shiftl (Z.land b0 0x0F) 12)
                              (Z.shiftl (Z.land b1 0x3F) 6))
                       (Z.land b2 0x3F), 3)
                  else
                    match t2 with
                    | [] => (RuneError, 1)
                    | b3 :: _ =>
                        if (b3 <? locb) || (hicb <? b3) then (RuneError, 1)
                        else
                          (Z.lor (Z.lor (Z.lor
                             (Z.shiftl (Z.land b0 0x07) 18)
                             (Z.shiftl (Z.land b1 0x3F) 12))
                             (Z.shiftl (Z.land b2 0x3F) 6))
                             (Z.land b3 0x3F), 4)
                    end
              end
        end
end.
End utf8.

Module unicode.

(** The range table [unicode.Join_Control]: U+200C and U+200D. *)
Definition Join_Control (r : rune) : bool := (0x200C <=? r) && (r <=? 0x200D).

End unicode.

(** [string(runes)]: the string a rune slice converts to. *)
Definition string_of_runes (runes : list rune) : list byte :=
  concat (map utf8.EncodeRune runes).

(** ** Writers *)

Inductive error : Type :=
  | ErrShortWrite
  | ErrOther (code : Z).

(** A computation that uses a writer of state [W] and returns an [A]. *)
Definition io (W A : Type) : Type := W -> A * W.

Definition io_ret {W A} (a : A) : io W A := fun w => (a, w).

Definition io_bind {W A B} (m : io W A) (k : A -> io W B) : io W B :=
  fun w => let '(a, w') := m w in k a w'.

Declare Scope io_scope.
Delimit Scope io_scope with io.
Notation "'let*' x ':=' m 'in' k" := (io_bind m (fun x => k))
  (at level 10, x pattern, m at level 100, k at level 200) : io_scope.
Notation "m ';;' k" := (io_bind m (fun _ => k))
  (at level 100, k at level 200, right associativity) : io_scope.

(** The final writer state of a computation. *)
Definition exec {W A} (m : io W A) (w : W) : W := snd (m w).

(** [io.Writer]: [Write(p)] reports the number of bytes taken and an
    optional error. *)
Class Writer (W : Type) : Type :=
  Write : list byte -> io W (Z * option error).

(** [strings.Builder]: appends, never fails. *)
Definition Builder : Type := list byte.

#[export] Instance Builder_Writer : Writer Builder :=
  fun p b => ((len p, None), b ++ p).

(** A writer that accepts [room] more bytes and then reports short writes;
    stands for any stream that can fail. *)
Record LimitedWriter : Type := mkLimited { room : nat; taken : list byte }.

#[export] Instance LimitedWriter_Writer : Writer LimitedWriter :=
  fun p w =>
    if (length p <=? room w)%nat
    then ((len p, None), mkLimited (room w - length p) (taken w ++ p))
    else ((Z.of_nat (room w), Some ErrShortWrite),
          mkLimited 0 (taken w ++ take (room w) p)).

(** ** Package readline: the Moji interface and its implementations *)

Module readline.

(** The implementations of [Moji] that moji.go names.  The two code-point
    types are declared elsewhere in the package; the three sequence types
    are pairs [[2]Moji]. *)
Inductive Moji : Type :=
  | _RawCodePoint (c : rune)
  | _WavingWhiteFlagCodePoint (c : rune)
  | _ZeroWidthJoinSequence (s0 s1 : Moji)
  | _ModifierSequence (s0 s1 : Moji)
  | _VariationSequence (s0 s1 : Moji).

(** The type switch [case _WavingWhiteFlagCodePoint]. *)
Definition isWavingWhiteFlag (m : Moji) : bool :=
  match m with
  | _WavingWhiteFlagCodePoint _ => true
  | _ => false
  end.

(** A bare code point, as opposed to a sequence. *)
Definition isCodePoint (m : Moji) : bool :=
  match m with
  | _RawCodePoint _ | _WavingWhiteFlagCodePoint _ => true
  | _ => false
  end.

(** The code point a Unit starts with: its innermost left operand. *)
Fixpoint firstCodePoint (m : Moji) : Moji :=
  match m with
  | _ZeroWidthJoinSequence s0 _ => firstCodePoint s0
  | _ModifierSequence s0 _ => firstCodePoint s0
  | _VariationSequence s0 _ => firstCodePoint s0
  | _ => m
  end.

Definition zeroWidthJoinRune : rune := 0x200D.

Section Moji.

(** The generic per-rune width table (the spec's Width Oracle) is outside
    moji.go: a parameter, any table is allowed. *)
Variable runeWidth : rune -> WidthT.

(** The [PrintTo] methods of the two code-point types are not in moji.go
    and the spec does not fix them: a parameter, the list of [Write] calls
    that the print of a bare code point issues. *)
Variable codePointPrint : Moji -> list (list byte).

(** Modelled from the spec: [Width] of a bare code point is not in
    moji.go; the spec says it comes from the Width Oracle. *)
Fixpoint Width (m : Moji) : WidthT :=
  match m with
  | _RawCodePoint c => runeWidth c
  | _WavingWhiteFlagCodePoint c => runeWidth c
  | _ZeroWidthJoinSequence s0 s1 => Width s0 + 1 + Width s1
  | _ModifierSequence s0 s1 => Width s0 + Width s1
  | _VariationSequence s0 s1 =>
      match s0 with
      | _WavingWhiteFlagCodePoint _ => Width s0
      | _ => Width s0 + 1
      end
  end.

Section Output.

Context {W : Type} `{Writer W}.
Local Open Scope io_scope.

(** Modelled from the spec: [writeRune] is not in moji.go; a code
    point is serialised verbatim, as its UTF-8 bytes in one [Write]. *)
Definition writeRune (r : rune) : io W (Z * option error) :=
  Write (utf8.EncodeRune r).

(** Modelled from the spec: [WriteTo] of a bare code point is not in
    moji.go; it serialises that code point. *)
Fixpoint WriteTo (m : Moji) : io W (Z * option error) :=
  match m with
  | _RawCodePoint c => writeRune c
  | _WavingWhiteFlagCodePoint c => writeRune c
  | _ZeroWidthJoinSequence s0 s1 =>
      let* (n1, err) := WriteTo s0 in
      match err with
      | Some _ => io_ret (n1, err)
      | None =>
          let* (n2, err) := writeRune zeroWidthJoinRune in
          match err with
          | Some _ => io_ret (n1 + n2, err)
          | None =>
              let* (n3, err) := WriteTo s1 in
              io_ret (n1 + n2 + n3, err)
          end
      end
  | _ModifierSequence s0 s1 =>
      let* (n1, err) := WriteTo s0 in
      match err with
      | Some _ => io_ret (n1, err)
      | None =>
          let* (n2, err) := WriteTo s1 in
          io_ret (n1 + n2, err)
      end
  | _VariationSequence s0 s1 =>
      let* (n1, err) := WriteTo s0 in
      match err with
      | Some _ => io_ret (n1, err)
      | None =>
          let* (n2, err) := WriteTo s1 in
          io_ret (n1 + n2, err)
      end
  end.

(** [for i := WidthT(0); i < n; i++ { w.Write(p) }] *)
Fixpoint writeTimes (k : nat) (p : list byte) : io W unit :=
  match k with
  | O => io_ret tt
  | S k' => Write p ;; writeTimes k' p
  end.

Definition saveCursorAfterN (n : WidthT) : io W unit :=
  writeTimes (Z.to_nat n) [0x20] ;;
  Write [0x1B; 0x37] ;;
  writeTimes (Z.to_nat n) [0x08].

Definition restoreCursor : io W unit :=
  Write [0x1B; 0x38] ;; io_ret tt.

(** The [Write] calls of a code point's print, results dropped. *)
Fixpoint writeAll (ps : list (list byte)) : io W unit :=
  match ps with
  | [] => io_ret tt
  | p :: ps' => Write p ;; writeAll ps'
  end.

Fixpoint PrintTo (m : Moji) : io W unit :=
  match m with
  | _RawCodePoint _ => writeAll (codePointPrint m)
  | _WavingWhiteFlagCodePoint _ => writeAll (codePointPrint m)
  | _ZeroWidthJoinSequence s0 s1 =>
      match s0 with
      | _WavingWhiteFlagCodePoint _ =>
          saveCursorAfterN (Width m) ;;
          WriteTo s0 ;;
          writeRune zeroWidthJoinRune ;;
          WriteTo s1 ;;
          restoreCursor
      | _ =>
          PrintTo s0 ;;
          writeRune zeroWidthJoinRune ;;
          PrintTo s1
      end
  | _ModifierSequence s0 s1 =>
      WriteTo m ;; io_ret tt
  | _VariationSequence s0 s1 =>
      saveCursorAfterN (Width m) ;;
      WriteTo s0 ;;
      WriteTo s1 ;;
      restoreCursor
  end.

End Output.

End Moji.

(** ** The composer *)

(** How a run of the composer ends. *)
Inductive result (A : Type) : Type :=
  | Done (a : A)
  | Panic
  | OutOfFuel.

Arguments Done {A} a.
Arguments Panic {A}.
Arguments OutOfFuel {A}.

Section Composer.

(** The capability flags that moji.go reads. *)
Variable ZeroWidthJoinSequenceOk : bool.
Variable ModifierSequenceOk : bool.

(** [isVariationSelectorLike] is not in moji.go: any predicate is
    allowed here (the spec has it gated by [VariationSequenceOk]). *)
Variable isVariationSelectorLike : rune -> bool.

(** The code points that the package gives the type
    [_WavingWhiteFlagCodePoint]; not in moji.go. *)
Variable isWavingWhiteFlagRune : rune -> bool.

Definition isEmojiModifier (ch : rune) : bool :=
  if negb ModifierSequenceOk then false
  else (0x1F3FB <=? ch) && (ch <=? 0x1F3FF).

Definition isZeroWidthJoin (r : rune) : bool :=
  ZeroWidthJoinSequenceOk && unicode.Join_Control r.

Definition areEmojiModifier (s : list byte) : bool :=
  if negb ModifierSequenceOk then false
  else let '(u, _) := utf8.DecodeRuneInString s in isEmojiModifier u.

Definition areZeroWidthJoin (s : list byte) : bool :=
  if negb ZeroWidthJoinSequenceOk then false
  else let '(r, _) := utf8.DecodeRuneInString s in isZeroWidthJoin r.

(** Modelled from the spec: [rune2moji] is not in moji.go; the spec has
    it make a new bare code point Unit for the rune. *)
Definition rune2moji (ch : rune) : Moji :=
  if isWavingWhiteFlagRune ch then _WavingWhiteFlagCodePoint ch
  else _RawCodePoint ch.

(** The body of the [for] loop of [string2moji] at index [i]: the index
    and the slice it leaves, before the statement's own [i++].  [None]
    is an index-out-of-range panic. *)
Definition loop_body (runes : list rune) (i : Z) (mojis : list Moji)
  : option (Z * list Moji) :=
  r ← index runes i;
  if isZeroWidthJoin r && (0 <? i) && (i + 1 <? len runes) then
    last ← index mojis (len mojis - 1);
    r1 ← index runes (i + 1);
    mojis' ← store mojis (len mojis - 1)
               (_ZeroWidthJoinSequence last (_RawCodePoint r1));
    Some (i + 1, mojis')
  else if isVariationSelectorLike r && (0 <? i) then
    last ← index mojis (len mojis - 1);
    mojis' ← store mojis (len mojis - 1)
               (_VariationSequence last (_RawCodePoint r));
    Some (i, mojis')
  else if isEmojiModifier r && (0 <? i) then
    last ← index mojis (len mojis - 1);
    mojis' ← store mojis (len mojis - 1)
               (_ModifierSequence last (_RawCodePoint r));
    Some (i, mojis')
  else
    Some (i, mojis ++ [rune2moji r]).

(** The [for] statement: test [i < len(runes)], run the body, then
    [i++].  [fuel] bounds the number of iterations. *)
Fixpoint loop (fuel : nat) (runes : list rune) (i : Z) (mojis : list Moji)
  : result (list Moji) :=
  if i <? len runes then
    match fuel with
    | O => OutOfFuel
    | S fuel' =>
        match loop_body runes i mojis with
        | None => Panic
        | Some (i', mojis') => loop fuel' runes (i' + 1) mojis'
        end
    end
  else Done mojis.

(** [string2moji], on the rune slice [[]rune(s)] of its argument, with
    one iteration of fuel per rune. *)
Definition string2moji (runes : list rune) : result (list Moji) :=
  loop (length runes) runes 0 [].

(** The loop states a run of [string2moji] goes through, taken at the
    loop test. *)
Inductive reachable (runes : list rune) : Z -> list Moji -> Prop :=
  | reach_start : reachable runes 0 []
  | reach_next i mojis i' mojis' :
      reachable runes i mojis ->
      i < len runes ->
      loop_body runes i mojis = Some (i', mojis') ->
      reachable runes (i' + 1) mojis'.

(** The four branches of the loop body. *)
Inductive branch (runes : list rune) (i : Z) (mojis : list Moji)
  : Z -> list Moji -> Prop :=
  | branch_join r r1 ms x :
      index runes i = Some r -> index runes (i + 1) = Some r1 ->
      isZeroWidthJoin r = true -> 0 < i -> mojis = ms ++ [x] ->
      branch runes i mojis (i + 1)
        (ms ++ [_ZeroWidthJoinSequence x (_RawCodePoint r1)])
  | branch_variation r ms x :
      index runes i = Some r ->
      isVariationSelectorLike r = true -> 0 < i -> mojis = ms ++ [x] ->
      branch runes i mojis i
        (ms ++ [_VariationSequence x (_RawCodePoint r)])
  | branch_modifier r ms x :
      index runes i = Some r ->
      isEmojiModifier r = true -> 0 < i -> mojis = ms ++ [x] ->
      branch runes i mojis i
        (ms ++ [_ModifierSequence x (_RawCodePoint r)])
  | branch_append r :
      index runes i = Some r ->
      branch runes i mojis i (mojis ++ [rune2moji r]).

(** Every joiner that the join rule can consume is U+200D itself. *)
Definition joinersAreZWJ (runes : list rune) : Prop :=
  forall i r, index runes i = Some r -> isZeroWidthJoin r = true ->
              r = zeroWidthJoinRune.

(** The last rune of the string is not one the join rule would take if
    more text followed. *)
Definition openEnded (runes : list rune) : Prop :=
  forall l, index runes (len runes - 1) = Some l -> 1 < len runes ->
            isZeroWidthJoin l = false.

End Composer.

(** The [range] loop of [moji2string] over a [strings.Builder]. *)
Fixpoint rangeWriteTo (m : list Moji) : io Builder unit :=
  match m with
  | [] => io_ret tt
  | m1 :: rest => io_bind (WriteTo m1) (fun _ => rangeWriteTo rest)
  end.

Definition moji2string (m : list Moji) : list byte :=
  exec (rangeWriteTo m) [].

End readline.

Import readline.

(** ** Concrete tables for examples *)

Module Example.

(** Narrow below U+1100, wide from there on: a stand-in width table. *)
Definition runeWidth (r : rune) : WidthT := if r <? 0x1100 then 1 else 2.

(** A bare code point printed by direct write. *)
Definition codePointPrint (m : Moji) : list (list byte) :=
  match m with
  | _RawCodePoint c | _WavingWhiteFlagCodePoint c => [utf8.EncodeRune c]
  | _ => []
  end.

(** The Unicode property Variation_Selector, gated by the flag. *)
Definition isVariationSelectorLike (VariationSequenceOk : bool) (r : rune)
  : bool :=
  VariationSequenceOk &&
  (((0xFE00 <=? r) && (r <=? 0xFE0F)) ||
   ((0x180B <=? r) && (r <=? 0x180D)) || (r =? 0x180F) ||
   ((0xE0100 <=? r) && (r <=? 0xE01EF))).

(** U+1F3F3 WAVING WHITE FLAG. *)
Definition isWavingWhiteFlagRune (r : rune) : bool := r =? 0x1F3F3.

(** The composer with every capability flag enabled. *)
Definition compose : list rune -> result (list Moji) :=
  string2moji true true (isVariationSelectorLike true) isWavingWhiteFlagRune.

End Example.

(** ** Output on a [strings.Builder] *)

(** The serialisation the spec describes: the code points of a Unit,
    verbatim, left to right. *)
Fixpoint serial (m : Moji) : list byte :=
  match m with
  | _RawCodePoint c => utf8.EncodeRune c
  | _WavingWhiteFlagCodePoint c => utf8.EncodeRune c
  | _ZeroWidthJoinSequence s0 s1 =>
      serial s0 ++ utf8.EncodeRune zeroWidthJoinRune ++ serial s1
  | _ModifierSequence s0 s1 => serial s0 ++ serial s1
  | _VariationSequence s0 s1 => serial s0 ++ serial s1
  end.

(** The serialisation of a sequence of Units, one after the other. *)
Definition flat (ms : list Moji) : list byte := concat (map serial ms).

(** The cursor-anchor trick as the spec words it: [n] spaces, ESC 7,
    [n] backspaces, the content, ESC 8. *)
Definition cursorAnchored (n : WidthT) (content : list byte) : list byte :=
  repeat 0x20 (Z.to_nat n) ++ [0x1B; 0x37] ++ repeat 0x08 (Z.to_nat n)
  ++ content ++ [0x1B; 0x38].

(** What [WriteTo] and [PrintTo] leave in an empty [strings.Builder]. *)
Definition written (m : Moji) : list byte := exec (WriteTo m) ([] : Builder).

Definition printed (runeWidth : rune -> WidthT)
    (codePointPrint : Moji -> list (list byte)) (m : Moji) : list byte :=
  exec (PrintTo runeWidth codePointPrint m) ([] : Builder).

(** ** Notions used to state further properties *)

Definition isRawCodePoint (m : Moji) : bool :=
  match m with
  | _RawCodePoint _ => true
  | _ => false
  end.

(** Every right operand inside the Unit is a [_RawCodePoint]: the Unit
    was grown leftwards, one code point at a time. *)
Fixpoint leftNested (m : Moji) : bool :=
  match m with
  | _RawCodePoint _ | _WavingWhiteFlagCodePoint _ => true
  | _ZeroWidthJoinSequence s0 s1 => leftNested s0 && isRawCodePoint s1
  | _ModifierSequence s0 s1 => leftNested s0 && isRawCodePoint s1
  | _VariationSequence s0 s1 => leftNested s0 && isRawCodePoint s1
  end.

(** What the last iteration of [string2moji] does with a final rune [r]
    when the slice so far ends in the Unit [x]. *)
Definition attachLast (isVS isMod : rune -> bool) (isFlag : rune -> bool)
    (ms : list Moji) (x : Moji) (r : rune) : list Moji :=
  if isVS r then ms ++ [_VariationSequence x (_RawCodePoint r)]
  else if isMod r then ms ++ [_ModifierSequence x (_RawCodePoint r)]
  else ms ++ [x; rune2moji isFlag r].

(** One selector or modifier wrapped around a Unit. *)
Definition wrap (isVS : rune -> bool) (m : Moji) (r : rune) : Moji :=
  if isVS r then _VariationSequence m (_RawCodePoint r)
  else _ModifierSequence m (_RawCodePoint r).

(** The [io.Writer] contract, for a writer whose accepted bytes are
    observed by [out]: [Write] takes a prefix of [p], reports its length,
    and reports an error whenever it took less than all of [p]. *)
Definition lawful {W : Type} `{Writer W} (out : W -> list byte) : Prop :=
  forall p w n e w',
    Write p w = ((n, e), w') ->
    0 <= n <= len p /\
    out w' = out w ++ take (Z.to_nat n) p /\
    (e = None -> n = len p).

(** What a flattened rune may be for an input rune: the rune itself, or
    U+200D where the input has U+200C. *)
Definition flattensTo (r' r : rune) : Prop :=
  r' = r \/ (r = 0x200C /\ r' = 0x200D).

(** Two writes in a row the way every [WriteTo] of moji.go chains them:
    the second is skipped when the first reports an error, and the counts
    are added. *)
Definition thenWrite {W : Type} (a b : io W (Z * option error))
  : io W (Z * option error) :=
  io_bind a (fun '(n1, err) =>
    match err with
    | Some _ => io_ret (n1, err)
    | None => io_bind b (fun '(n2, err) => io_ret (n1 + n2, err))
    end).

(** A computation that writes a prefix of [bs], all of it unless it
    reports an error, and returns how much. *)
Definition writesPrefixOf {W : Type} (out : W -> list byte)
    (a : io W (Z * option error)) (bs : list byte) : Prop :=
  forall w n e w',
    a w = ((n, e), w') ->
    0 <= n <= len bs /\
    out w' = out w ++ take (Z.to_nat n) bs /\
    (e = None -> n = len bs).

(** A byte of a Go string, and a Unicode scalar value. *)
Definition isByte (b : byte) : Prop := 0 <= b < 256.

Definition validRune (r : rune) : Prop :=
  0 <= r <= utf8.MaxRune /\ ~ (utf8.surrogateMin <= r <= utf8.surrogateMax).

(** The table [utf8.first] read as ranges of the first byte. *)
Definition first_chain (b : byte) : Z :=
  if b <? 0x80 then utf8.as_
  else if b <? 0xC2 then utf8.xx
  else if b <? 0xE0 then utf8.s1
  else if b =? 0xE0 then utf8.s2
  else if b =? 0xED then utf8.s4
  else if b <? 0xF0 then utf8.s3
  else if b =? 0xF0 then utf8.s5
  else if b <? 0xF4 then utf8.s6
  else if b =? 0xF4 then utf8.s7
  else utf8.xx.

(** The bounds [utf8.acceptRanges] puts on the second byte. *)
Definition second_lo (b0 : byte) : Z :=
  if b0 =? 0xE0 then 0xA0 else if b0 =? 0xF0 then 0x90 else 0x80.

Definition second_hi (b0 : byte) : Z :=
  if b0 =? 0xED then 0x9F else if b0 =? 0xF4 then 0x8F else 0xBF.

(** Whether a sequence of the given kind occurs anywhere in a Unit. *)
Fixpoint hasZeroWidthJoin (m : Moji) : bool :=
  match m with
  | _RawCodePoint _ | _WavingWhiteFlagCodePoint _ => false
  | _ZeroWidthJoinSequence _ _ => true
  | _ModifierSequence s0 s1 => hasZeroWidthJoin s0 || hasZeroWidthJoin s1
  | _VariationSequence s0 s1 => hasZeroWidthJoin s0 || hasZeroWidthJoin s1
  end.

Fixpoint hasModifier (m : Moji) : bool :=
  match m with
  | _RawCodePoint _ | _WavingWhiteFlagCodePoint _ => false
  | _ModifierSequence _ _ => true
  | _ZeroWidthJoinSequence s0 s1 => hasModifier s0 || hasModifier s1
  | _VariationSequence s0 s1 => hasModifier s0 || hasModifier s1
  end.

Fixpoint hasVariation (m : Moji) : bool :=
  match m with
  | _RawCodePoint _ | _WavingWhiteFlagCodePoint _ => false
  | _VariationSequence _ _ => true
  | _ZeroWidthJoinSequence s0 s1 => hasVariation s0 || hasVariation s1
  | _ModifierSequence s0 s1 => hasVariation s0 || hasVariation s1
  end.

(** * Properties *)

Lemma EncodeRune_ZWJ : utf8.EncodeRune 0x200D = [0xE2; 0x80; 0x8D].
Proof. reflexivity. Qed.

Lemma EncodeRune_ZWNJ : utf8.EncodeRune 0x200C = [0xE2; 0x80; 0x8C].
Proof. reflexivity. Qed.

Lemma len_app {A} (l1 l2 : list A) : len (l1 ++ l2) = len l1 + len l2.
Proof. unfold len. rewrite length_app. lia. Qed.

Lemma WriteTo_Builder (m : Moji) (buf : Builder) :
  WriteTo m buf = ((len (serial m), None), buf ++ serial m).
Proof.
  revert buf. induction m as [c|c|s0 IH0 s1 IH1|s0 IH0 s1 IH1|s0 IH0 s1 IH1];
    intros buf; cbn [WriteTo serial]; try reflexivity.
  - unfold io_bind. rewrite IH0. unfold writeRune, Write at 1, Builder_Writer.
    rewrite IH1. unfold io_ret. rewrite !len_app, <- !app_assoc, Z.add_assoc.
    reflexivity.
  - unfold io_bind. rewrite IH0, IH1. unfold io_ret.
    rewrite len_app, <- app_assoc. reflexivity.
  - unfold io_bind. rewrite IH0, IH1. unfold io_ret.
    rewrite len_app, <- app_assoc. reflexivity.
Qed.

Lemma written_serial (m : Moji) : exec (WriteTo m) ([] : Builder) = serial m.
Proof. unfold exec. rewrite WriteTo_Builder. reflexivity. Qed.

Lemma writeRune_Builder (r : rune) (buf : Builder) :
  writeRune r buf = ((len (utf8.EncodeRune r), None), buf ++ utf8.EncodeRune r).
Proof. reflexivity. Qed.

Lemma writeTimes_Builder (k : nat) (b : byte) (buf : Builder) :
  writeTimes k [b] buf = (tt, buf ++ repeat b k).
Proof.
  revert buf. induction k as [|k IH]; intros buf; simpl.
  - unfold io_ret. rewrite app_nil_r. reflexivity.
  - unfold io_bind. unfold Write at 1, Builder_Writer. rewrite IH.
    rewrite <- app_assoc. reflexivity.
Qed.

Lemma writeAll_Builder (ps : list (list byte)) (buf : Builder) :
  writeAll ps buf = (tt, buf ++ concat ps).
Proof.
  revert buf. induction ps as [|p ps IH]; intros buf; simpl.
  - unfold io_ret. rewrite app_nil_r. reflexivity.
  - unfold io_bind. unfold Write at 1, Builder_Writer. rewrite IH.
    rewrite <- app_assoc. reflexivity.
Qed.

Lemma saveCursorAfterN_Builder (n : WidthT) (buf : Builder) :
  saveCursorAfterN n buf =
  (tt, buf ++ repeat 0x20 (Z.to_nat n) ++ [0x1B; 0x37]
           ++ repeat 0x08 (Z.to_nat n)).
Proof.
  unfold saveCursorAfterN, io_bind. rewrite writeTimes_Builder.
  unfold Write at 1, Builder_Writer. rewrite writeTimes_Builder.
  rewrite <- !app_assoc. reflexivity.
Qed.

Lemma restoreCursor_Builder (buf : Builder) :
  restoreCursor buf = (tt, buf ++ [0x1B; 0x38]).
Proof. reflexivity. Qed.

Section Printing.

Variable runeWidth : rune -> WidthT.
Variable codePointPrint : Moji -> list (list byte).

Local Abbreviation Width := (Width runeWidth).
Local Abbreviation PrintTo := (PrintTo runeWidth codePointPrint).
Local Abbreviation printed := (printed runeWidth codePointPrint).

Lemma exec_WriteTo_Builder (m : Moji) (buf : Builder) :
  exec (WriteTo m) buf = buf ++ written m.
Proof. unfold written, exec. rewrite !WriteTo_Builder. reflexivity. Qed.

Lemma bracket_Builder (n : WidthT) (s0 s1 : Moji) (mid : list byte)
    (buf : Builder) :
  restoreCursor (buf ++ repeat 0x20 (Z.to_nat n) ++ [0x1B; 0x37]
                     ++ repeat 0x08 (Z.to_nat n)
                     ++ serial s0 ++ mid ++ serial s1)
  = (tt, buf ++ cursorAnchored n (written s0 ++ mid ++ written s1)).
Proof.
  rewrite restoreCursor_Builder. unfold cursorAnchored, written.
  rewrite !written_serial, <- !app_assoc. reflexivity.
Qed.

Lemma VariationSequence_PrintTo_Builder (s0 s1 : Moji) (buf : Builder) :
  PrintTo (_VariationSequence s0 s1) buf =
  (tt, buf ++ cursorAnchored (Width (_VariationSequence s0 s1))
                (written s0 ++ written s1)).
Proof.
  cbn [readline.PrintTo]. unfold io_bind.
  rewrite saveCursorAfterN_Builder, !WriteTo_Builder.
  rewrite <- (bracket_Builder _ s0 s1 []). rewrite <- !app_assoc.
  reflexivity.
Qed.

Lemma flag_ZeroWidthJoinSequence_PrintTo_Builder (c : rune) (s1 : Moji)
    (buf : Builder) :
  PrintTo (_ZeroWidthJoinSequence (_WavingWhiteFlagCodePoint c) s1) buf =
  (tt, buf ++ cursorAnchored
                (Width (_ZeroWidthJoinSequence
                          (_WavingWhiteFlagCodePoint c) s1))
                (written (_WavingWhiteFlagCodePoint c)
                 ++ utf8.EncodeRune zeroWidthJoinRune ++ written s1)).
Proof.
  cbn [readline.PrintTo]. unfold io_bind.
  rewrite saveCursorAfterN_Builder, !WriteTo_Builder, writeRune_Builder.
  rewrite WriteTo_Builder.
  rewrite <- (bracket_Builder _ (_WavingWhiteFlagCodePoint c) s1
                (utf8.EncodeRune zeroWidthJoinRune)).
  rewrite <- !app_assoc. reflexivity.
Qed.

Lemma default_ZeroWidthJoinSequence_PrintTo {W : Type} `{Writer W}
    (s0 s1 : Moji) :
  isWavingWhiteFlag s0 = false ->
  PrintTo (_ZeroWidthJoinSequence s0 s1) =
  io_bind (PrintTo s0) (fun _ =>
  io_bind (writeRune zeroWidthJoinRune) (fun _ => PrintTo s1)) :> io W unit.
Proof. destruct s0; intros Hf; try discriminate Hf; reflexivity. Qed.

Lemma PrintTo_Builder (m : Moji) (buf : Builder) :
  PrintTo m buf = (tt, buf ++ printed m).
Proof.
  revert buf.
  induction m as [c|c|s0 IH0 s1 IH1|s0 IH0 s1 IH1|s0 IH0 s1 IH1];
    intros buf.
  - unfold printed, exec. cbn [readline.PrintTo].
    rewrite !writeAll_Builder. reflexivity.
  - unfold printed, exec. cbn [readline.PrintTo].
    rewrite !writeAll_Builder. reflexivity.
  - destruct (isWavingWhiteFlag s0) eqn:Hf.
    + destruct s0; try discriminate Hf. unfold printed, exec.
      rewrite !flag_ZeroWidthJoinSequence_PrintTo_Builder. reflexivity.
    + unfold printed, exec.
      rewrite !default_ZeroWidthJoinSequence_PrintTo by exact Hf.
      unfold io_bind. rewrite (IH0 buf), (IH0 []), !writeRune_Builder.
      rewrite !IH1. cbn [snd]. rewrite <- !app_assoc. reflexivity.
  - unfold printed, exec. cbn [readline.PrintTo]. unfold io_bind, io_ret.
    rewrite !WriteTo_Builder. reflexivity.
  - unfold printed, exec.
    rewrite !VariationSequence_PrintTo_Builder. reflexivity.
Qed.

(** C1 (amended).  A [_ZeroWidthJoinSequence] whose left operand is not a
    [_WavingWhiteFlagCodePoint] puts no cursor bracket of its own: on
    every writer its [PrintTo] is [PrintTo] of the left operand, the
    joiner U+200D, then [PrintTo] of the right operand.  When the left
    operand is the flag code point, the cursor-anchor trick is applied
    once around the whole sequence and both operands are emitted with
    [WriteTo]. *)
Theorem ZeroWidthJoinSequence_PrintTo (s0 s1 : Moji) (buf : Builder) :
  (isWavingWhiteFlag s0 = false ->
     (forall (W : Type) (HW : Writer W) (w : W),
        PrintTo (_ZeroWidthJoinSequence s0 s1) w =
        io_bind (PrintTo s0) (fun _ =>
        io_bind (writeRune zeroWidthJoinRune) (fun _ => PrintTo s1)) w) /\
     exec (PrintTo (_ZeroWidthJoinSequence s0 s1)) buf =
     buf ++ printed s0 ++ utf8.EncodeRune zeroWidthJoinRune ++ printed s1)
  /\
  (isWavingWhiteFlag s0 = true ->
     exec (PrintTo (_ZeroWidthJoinSequence s0 s1)) buf =
     buf ++ cursorAnchored (Width (_ZeroWidthJoinSequence s0 s1))
              (written s0 ++ utf8.EncodeRune zeroWidthJoinRune
               ++ written s1)).
Proof.
  split; intros Hf.
  - split.
    + intros W HW w.
      rewrite default_ZeroWidthJoinSequence_PrintTo by exact Hf.
      reflexivity.
    + unfold exec.
      rewrite default_ZeroWidthJoinSequence_PrintTo by exact Hf.
      unfold io_bind. rewrite PrintTo_Builder, writeRune_Builder.
      rewrite PrintTo_Builder. cbn [snd]. rewrite <- !app_assoc.
      reflexivity.
  - destruct s0; try discriminate Hf. unfold exec.
    rewrite flag_ZeroWidthJoinSequence_PrintTo_Builder. reflexivity.
Qed.

(** C3.  [PrintTo] of a [_VariationSequence] appends to the stream:
    width spaces, ESC 7, width backspaces, the bytes [WriteTo] gives for
    the base, the bytes [WriteTo] gives for the selector, ESC 8.  The
    operands contribute their [WriteTo] bytes, which are their code
    points verbatim, also when an operand is itself a sequence. *)
Theorem VariationSequence_PrintTo_bytes (s0 s1 : Moji) (buf : Builder) :
  exec (PrintTo (_VariationSequence s0 s1)) buf =
  buf ++ repeat 0x20 (Z.to_nat (Width (_VariationSequence s0 s1)))
      ++ [0x1B; 0x37]
      ++ repeat 0x08 (Z.to_nat (Width (_VariationSequence s0 s1)))
      ++ exec (WriteTo s0) ([] : Builder)
      ++ exec (WriteTo s1) ([] : Builder)
      ++ [0x1B; 0x38]
  /\ exec (WriteTo s0) ([] : Builder) = serial s0
  /\ exec (WriteTo s1) ([] : Builder) = serial s1.
Proof.
  split; [| split; apply written_serial].
  unfold exec at 1. rewrite VariationSequence_PrintTo_Builder.
  unfold cursorAnchored, written. cbn [snd]. rewrite <- !app_assoc.
  reflexivity.
Qed.

(** C4.  [Width] of a [_VariationSequence] is the base's width when the
    base is a [_WavingWhiteFlagCodePoint] and the base's width plus 1
    otherwise; a base that is a sequence containing the flag code point
    gets the plus 1. *)
Theorem VariationSequence_Width (s0 s1 : Moji) :
  Width (_VariationSequence s0 s1) =
    (if isWavingWhiteFlag s0 then Width s0 else Width s0 + 1)
  /\ (forall c t sel,
        Width (_VariationSequence
                 (_ZeroWidthJoinSequence (_WavingWhiteFlagCodePoint c) t)
                 sel)
        = Width (_ZeroWidthJoinSequence (_WavingWhiteFlagCodePoint c) t) + 1)
  /\ (forall c sel sel',
        Width (_VariationSequence
                 (_VariationSequence (_WavingWhiteFlagCodePoint c) sel)
                 sel')
        = Width (_WavingWhiteFlagCodePoint c) + 1).
Proof.
  split; [| split].
  - destruct s0; reflexivity.
  - reflexivity.
  - reflexivity.
Qed.

(** C6.  [PrintTo] of a [_ModifierSequence] leaves every writer in the
    state [WriteTo] leaves it in; on a byte buffer that is the base's
    bytes then the modifier's bytes, with no cursor sequence; and its
    [Width] is the base's width plus the modifier's width. *)
Theorem ModifierSequence_PrintTo_WriteTo (s0 s1 : Moji) :
  (forall (W : Type) (HW : Writer W) (w : W),
     exec (PrintTo (_ModifierSequence s0 s1)) w =
     exec (WriteTo (_ModifierSequence s0 s1)) w)
  /\ (forall buf : Builder,
        exec (PrintTo (_ModifierSequence s0 s1)) buf =
        buf ++ exec (WriteTo s0) ([] : Builder)
            ++ exec (WriteTo s1) ([] : Builder))
  /\ Width (_ModifierSequence s0 s1) = Width s0 + Width s1.
Proof.
  split; [| split].
  - intros W HW w. unfold exec. cbn [readline.PrintTo].
    unfold io_bind, io_ret.
    destruct (WriteTo (_ModifierSequence s0 s1) w). reflexivity.
  - intros buf. unfold exec. cbn [readline.PrintTo].
    unfold io_bind, io_ret. rewrite !WriteTo_Builder.
    cbn [snd serial]. reflexivity.
  - reflexivity.
Qed.

End Printing.

Section WriteErrors.

Context {W : Type} `{Writer W}.

(** C7.  In [WriteTo] of a sequence, when a constituent write reports an
    error, the result is that error with the byte counts reported so far
    added up, and the writer is left in the state the failing write left
    it in: nothing more is written. *)
Theorem WriteTo_first_error (s0 s1 : Moji) (w w1 w2 w3 : W)
    (n1 n2 n3 : Z) (e : error) :
  (* _ZeroWidthJoinSequence *)
  (WriteTo s0 w = ((n1, Some e), w1) ->
     WriteTo (_ZeroWidthJoinSequence s0 s1) w = ((n1, Some e), w1))
  /\ (WriteTo s0 w = ((n1, None), w1) ->
      writeRune zeroWidthJoinRune w1 = ((n2, Some e), w2) ->
      WriteTo (_ZeroWidthJoinSequence s0 s1) w = ((n1 + n2, Some e), w2))
  /\ (WriteTo s0 w = ((n1, None), w1) ->
      writeRune zeroWidthJoinRune w1 = ((n2, None), w2) ->
      WriteTo s1 w2 = ((n3, Some e), w3) ->
      WriteTo (_ZeroWidthJoinSequence s0 s1) w
      = ((n1 + n2 + n3, Some e), w3))
  (* _ModifierSequence *)
  /\ (WriteTo s0 w = ((n1, Some e), w1) ->
      WriteTo (_ModifierSequence s0 s1) w = ((n1, Some e), w1))
  /\ (WriteTo s0 w = ((n1, None), w1) ->
      WriteTo s1 w1 = ((n2, Some e), w2) ->
      WriteTo (_ModifierSequence s0 s1) w = ((n1 + n2, Some e), w2))
  (* _VariationSequence *)
  /\ (WriteTo s0 w = ((n1, Some e), w1) ->
      WriteTo (_VariationSequence s0 s1) w = ((n1, Some e), w1))
  /\ (WriteTo s0 w = ((n1, None), w1) ->
      WriteTo s1 w1 = ((n2, Some e), w2) ->
      WriteTo (_VariationSequence s0 s1) w = ((n1 + n2, Some e), w2)).
Proof.
  repeat split; intros;
    cbn [WriteTo]; unfold io_bind, io_ret;
    repeat match goal with
           | E : _ = _ |- _ => rewrite E; clear E
           end;
    reflexivity.
Qed.

End WriteErrors.

(** A stream with room for two bytes: only the first byte of the joiner of
    "a" ZWJ "b" fits, and "b" is never written. *)
Lemma WriteTo_first_error_witness :
  WriteTo (_ZeroWidthJoinSequence (_RawCodePoint 0x61) (_RawCodePoint 0x62))
    (mkLimited 2 [])
  = ((1 + 1, Some ErrShortWrite), mkLimited 0 [0x61; 0xE2]).
Proof.
  apply (WriteTo_first_error (_RawCodePoint 0x61) (_RawCodePoint 0x62)
           (mkLimited 2 []) (mkLimited 1 [0x61]) (mkLimited 0 [0x61; 0xE2])
           (mkLimited 0 []) 1 1 0 ErrShortWrite);
    reflexivity.
Defined.

(** ** The composer: loop states and invariants *)

Lemma index_Some {A} (l : list A) (i : Z) :
  0 <= i < len l -> exists x, index l i = Some x /\ l !! Z.to_nat i = Some x.
Proof.
  intros Hi. unfold index.
  destruct (Z.leb_spec 0 i); [| lia]. destruct (Z.ltb_spec i (len l)); [| lia].
  cbn [andb]. destruct (lookup_lt_is_Some_2 l (Z.to_nat i)) as [x Hx].
  - unfold len in Hi. lia.
  - exists x. split; exact Hx.
Qed.

Lemma index_inv {A} (l : list A) (i : Z) (x : A) :
  index l i = Some x -> 0 <= i < len l /\ l !! Z.to_nat i = Some x.
Proof.
  unfold index. destruct (Z.leb_spec 0 i); cbn [andb]; [| discriminate].
  destruct (Z.ltb_spec i (len l)); [| discriminate]. intros Hx. auto.
Qed.

Lemma len_snoc {A} (l : list A) (x : A) : len (l ++ [x]) = len l + 1.
Proof. unfold len. rewrite length_app. cbn [length]. lia. Qed.

Lemma len_nonneg {A} (l : list A) : 0 <= len l.
Proof. unfold len. lia. Qed.

Lemma index_last {A} (ms : list A) (x : A) :
  index (ms ++ [x]) (len (ms ++ [x]) - 1) = Some x.
Proof.
  rewrite len_snoc. pose proof (len_nonneg ms) as Hn. unfold index.
  rewrite len_snoc.
  destruct (Z.leb_spec 0 (len ms + 1 - 1)); [| lia].
  destruct (Z.ltb_spec (len ms + 1 - 1) (len ms + 1)); [| lia].
  cbn [andb]. replace (Z.to_nat (len ms + 1 - 1)) with (length ms + 0)%nat
    by (unfold len; lia).
  rewrite lookup_app_r by lia.
  replace (length ms + 0 - length ms)%nat with 0%nat by lia. reflexivity.
Qed.

Lemma store_last {A} (ms : list A) (x y : A) :
  store (ms ++ [x]) (len (ms ++ [x]) - 1) y = Some (ms ++ [y]).
Proof.
  rewrite len_snoc. pose proof (len_nonneg ms) as Hn. unfold store.
  rewrite len_snoc.
  destruct (Z.leb_spec 0 (len ms + 1 - 1)); [| lia].
  destruct (Z.ltb_spec (len ms + 1 - 1) (len ms + 1)); [| lia].
  cbn [andb]. replace (Z.to_nat (len ms + 1 - 1)) with (length ms + 0)%nat
    by (unfold len; lia).
  rewrite insert_app_r. reflexivity.
Qed.

Lemma nonempty_snoc {A} (l : list A) :
  l <> [] -> exists ms x, l = ms ++ [x].
Proof.
  destruct l as [|a l] using rev_ind; [congruence |]. intros _. eauto.
Qed.

Section ComposerProperties.

Variable ZeroWidthJoinSequenceOk : bool.
Variable ModifierSequenceOk : bool.
Variable isVariationSelectorLike : rune -> bool.
Variable isWavingWhiteFlagRune : rune -> bool.

Local Abbreviation isZeroWidthJoin := (isZeroWidthJoin ZeroWidthJoinSequenceOk).
Local Abbreviation isEmojiModifier := (isEmojiModifier ModifierSequenceOk).
Local Abbreviation rune2moji := (rune2moji isWavingWhiteFlagRune).
Local Abbreviation loop_body :=
  (loop_body ZeroWidthJoinSequenceOk ModifierSequenceOk
     isVariationSelectorLike isWavingWhiteFlagRune).
Local Abbreviation loop :=
  (loop ZeroWidthJoinSequenceOk ModifierSequenceOk
     isVariationSelectorLike isWavingWhiteFlagRune).
Local Abbreviation string2moji :=
  (string2moji ZeroWidthJoinSequenceOk ModifierSequenceOk
     isVariationSelectorLike isWavingWhiteFlagRune).
Local Abbreviation reachable :=
  (reachable ZeroWidthJoinSequenceOk ModifierSequenceOk
     isVariationSelectorLike isWavingWhiteFlagRune).
Local Abbreviation branch :=
  (branch ZeroWidthJoinSequenceOk ModifierSequenceOk
     isVariationSelectorLike isWavingWhiteFlagRune).
Local Abbreviation joinersAreZWJ := (joinersAreZWJ ZeroWidthJoinSequenceOk).

Lemma loop_body_branch (runes : list rune) (i : Z) (mojis : list Moji) :
  0 <= i < len runes -> (0 < i -> mojis <> []) ->
  exists i' mojis',
    loop_body runes i mojis = Some (i', mojis') /\
    branch runes i mojis i' mojis'.
Proof.
  intros Hi Hne. destruct (index_Some runes i Hi) as (r & Hr & _).
  unfold readline.loop_body. rewrite Hr. cbn [mbind option_bind].
  destruct (Z.ltb_spec 0 i) as [Hpos|Hz].
  - destruct (nonempty_snoc mojis (Hne Hpos)) as (ms & x & ->).
    rewrite !index_last. cbn [mbind option_bind]. rewrite !store_last.
    cbn [mbind option_bind]. rewrite !andb_true_r.
    destruct (isZeroWidthJoin r) eqn:Hj; cbn [andb].
    + destruct (Z.ltb_spec (i + 1) (len runes)) as [Hn|Hn].
      * destruct (index_Some runes (i + 1)) as (r1 & Hr1 & _); [lia |].
        rewrite Hr1. cbn [mbind option_bind]. rewrite store_last.
        eexists _, _. split; [reflexivity |].
        eapply branch_join; eauto.
      * destruct (isVariationSelectorLike r) eqn:Hv.
        { eexists _, _. split; [reflexivity |].
          eapply branch_variation; eauto. }
        destruct (isEmojiModifier r) eqn:Hm.
        { eexists _, _. split; [reflexivity |].
          eapply branch_modifier; eauto. }
        eexists _, _. split; [reflexivity |]. eapply branch_append; eauto.
    + destruct (isVariationSelectorLike r) eqn:Hv.
      { eexists _, _. split; [reflexivity |].
        eapply branch_variation; eauto. }
      destruct (isEmojiModifier r) eqn:Hm.
      { eexists _, _. split; [reflexivity |].
        eapply branch_modifier; eauto. }
      eexists _, _. split; [reflexivity |]. eapply branch_append; eauto.
  - rewrite !andb_false_r. cbn [andb].
    eexists _, _. split; [reflexivity |]. eapply branch_append; eauto.
Qed.

Lemma branch_bounds runes i mojis i' mojis' :
  0 <= i -> branch runes i mojis i' mojis' ->
  i <= i' < len runes /\ mojis' <> [].
Proof.
  intros Hi Hb. destruct Hb as [r r1 ms x Hr Hr1 _ _ _|r ms x Hr _ _ _
                               |r ms x Hr _ _ _|r Hr];
    try apply index_inv in Hr1 as [? _]; apply index_inv in Hr as [? _];
    (split; [lia | intros E; apply app_eq_nil in E as [_ E];
                   discriminate E]).
Qed.

Lemma reachable_bounds runes i mojis :
  reachable runes i mojis -> 0 <= i /\ (0 < i -> mojis <> []).
Proof.
  induction 1 as [|i mojis i' mojis' Hr [IH0 IH1] Hlt Hb].
  - split; lia.
  - destruct (loop_body_branch runes i mojis) as (j & ms & Hb' & Hbr);
      [lia | exact IH1 |].
    rewrite Hb in Hb'. injection Hb' as <- <-.
    destruct (branch_bounds _ _ _ _ _ IH0 Hbr) as [? ?].
    split; [lia | auto].
Qed.

Lemma reachable_step runes i mojis :
  reachable runes i mojis -> i < len runes ->
  exists i' mojis',
    loop_body runes i mojis = Some (i', mojis') /\
    branch runes i mojis i' mojis' /\
    reachable runes (i' + 1) mojis'.
Proof.
  intros Hr Hlt. destruct (reachable_bounds _ _ _ Hr) as [H0 Hne].
  destruct (loop_body_branch runes i mojis) as (j & ms & Hb & Hbr);
    [lia | exact Hne |].
  exists j, ms. repeat split; try assumption.
  eapply reach_next; eauto.
Qed.

Lemma loop_reaches (runes : list rune) (fuel : nat) :
  forall i mojis,
    reachable runes i mojis -> len runes - i <= Z.of_nat fuel ->
    exists ms j,
      loop fuel runes i mojis = Done ms /\
      reachable runes j ms /\ len runes <= j.
Proof.
  induction fuel as [|fuel IH]; intros i mojis Hr Hfuel.
  - cbn [readline.loop]. destruct (Z.ltb_spec i (len runes)); [lia |].
    exists mojis, i. auto.
  - cbn [readline.loop]. destruct (Z.ltb_spec i (len runes)) as [Hlt|Hge].
    + destruct (reachable_step _ _ _ Hr Hlt) as (i' & mojis' & Hb & Hbr & Hr').
      rewrite Hb. apply IH; [exact Hr' |].
      destruct (reachable_bounds _ _ _ Hr) as [H0 _].
      destruct (branch_bounds _ _ _ _ _ H0 Hbr). lia.
    + exists mojis, i. auto.
Qed.

Lemma string2moji_reaches (runes : list rune) :
  exists ms j,
    string2moji runes = Done ms /\ reachable runes j ms /\ len runes <= j.
Proof.
  apply loop_reaches; [constructor | unfold len; lia].
Qed.

(** *** Single steps, for running the loop on a given slice *)

Lemma loop_step fuel runes i mojis i' mojis' :
  i < len runes -> loop_body runes i mojis = Some (i', mojis') ->
  loop (S fuel) runes i mojis = loop fuel runes (i' + 1) mojis'.
Proof.
  intros Hlt Hb. cbn [readline.loop].
  destruct (Z.ltb_spec i (len runes)); [| lia]. rewrite Hb. reflexivity.
Qed.

Lemma loop_done fuel runes i mojis :
  len runes <= i -> loop fuel runes i mojis = Done mojis.
Proof.
  intros Hge. destruct fuel; cbn [readline.loop];
    destruct (Z.ltb_spec i (len runes)); try lia; reflexivity.
Qed.

Lemma loop_body_first runes r mojis :
  index runes 0 = Some r ->
  loop_body runes 0 mojis = Some (0, mojis ++ [rune2moji r]).
Proof.
  intros Hr. unfold readline.loop_body. rewrite Hr.
  cbn [mbind option_bind]. change (0 <? 0) with false.
  rewrite !andb_false_r. reflexivity.
Qed.

Lemma loop_body_join runes i ms x r r1 :
  index runes i = Some r -> index runes (i + 1) = Some r1 ->
  isZeroWidthJoin r = true -> 0 < i ->
  loop_body runes i (ms ++ [x]) =
  Some (i + 1, ms ++ [_ZeroWidthJoinSequence x (_RawCodePoint r1)]).
Proof.
  intros Hr Hr1 Hj Hpos. unfold readline.loop_body. rewrite Hr.
  cbn [mbind option_bind]. rewrite Hj.
  destruct (Z.ltb_spec 0 i); [| lia].
  apply index_inv in Hr1 as Hb. destruct Hb as [Hb _].
  destruct (Z.ltb_spec (i + 1) (len runes)); [| lia]. cbn [andb].
  rewrite index_last, Hr1. cbn [mbind option_bind]. rewrite store_last.
  reflexivity.
Qed.

Lemma loop_body_plain runes i mojis r :
  index runes i = Some r ->
  isZeroWidthJoin r = false -> isVariationSelectorLike r = false ->
  isEmojiModifier r = false ->
  loop_body runes i mojis = Some (i, mojis ++ [rune2moji r]).
Proof.
  intros Hr Hj Hv Hm. unfold readline.loop_body. rewrite Hr.
  cbn [mbind option_bind]. rewrite Hj, Hv, Hm. reflexivity.
Qed.

Lemma Join_Control_not_modifier (r : rune) :
  unicode.Join_Control r = true -> isEmojiModifier r = false.
Proof.
  unfold unicode.Join_Control, readline.isEmojiModifier. intros Hj.
  apply andb_true_iff in Hj as [_ Hj]. apply Z.leb_le in Hj.
  destruct (negb ModifierSequenceOk); [reflexivity |].
  destruct (Z.leb_spec 0x1F3FB r); [lia | reflexivity].
Qed.

(** *** Invariants of the reachable loop states *)

Lemma reachable_zero runes mojis : reachable runes 0 mojis -> mojis = [].
Proof.
  intros Hr. remember 0 as z eqn:Hz. destruct Hr as [|i m i' m' Hr Hlt Hb].
  - reflexivity.
  - destruct (reachable_step _ _ _ Hr Hlt) as (j & ms & Hb' & Hbr & _).
    rewrite Hb in Hb'. injection Hb' as <- <-.
    destruct (reachable_bounds _ _ _ Hr) as [H0 _].
    destruct (branch_bounds _ _ _ _ _ H0 Hbr). lia.
Qed.

Lemma reachable_base r rest i mojis :
  reachable (r :: rest) i mojis -> 0 < i ->
  exists m ms, mojis = m :: ms /\ firstCodePoint m = rune2moji r.
Proof.
  induction 1 as [|i mojis i' mojis' Hr IH Hlt Hb]; [lia |]. intros _.
  destruct (reachable_step _ _ _ Hr Hlt) as (j & ms & Hb' & Hbr & _).
  rewrite Hb in Hb'. injection Hb' as <- <-.
  destruct (reachable_bounds _ _ _ Hr) as [H0 _].
  destruct (Z.eq_dec i 0) as [->|Hi].
  - apply reachable_zero in Hr as ->.
    inversion Hbr as [? ? ? ? _ _ _ Hp|? ? ? _ _ Hp|? ? ? _ _ Hp|r0 Hr0];
      try lia.
    exists (rune2moji r0), []. split; [reflexivity |].
    assert (r0 = r) as -> by (symmetry; injection Hr0 as E; exact E).
    unfold readline.rune2moji.
    destruct (isWavingWhiteFlagRune r); reflexivity.
  - destruct IH as (m & tl & -> & Hm); [lia |].
    assert (Hwrap : forall ms x y,
               m :: tl = ms ++ [x] -> firstCodePoint y = firstCodePoint x ->
               exists m' tl', ms ++ [y] = m' :: tl' /\
                              firstCodePoint m' = rune2moji r).
    { intros [|m0 ms0] x y E Hy; cbn in E |- *.
      - injection E as <- _. eexists _, _. split; [reflexivity |].
        congruence.
      - injection E as <- _. eexists _, _. split; [reflexivity |].
        exact Hm. }
    inversion Hbr as [? ? ? ? _ _ _ _ E|? ? ? _ _ _ E|? ? ? _ _ _ E|r0 _];
      subst; try (eapply Hwrap; [eassumption | reflexivity]).
    eexists _, _. split; [reflexivity | exact Hm].
Qed.

Lemma string_of_runes_app l1 l2 :
  string_of_runes (l1 ++ l2) = string_of_runes l1 ++ string_of_runes l2.
Proof. unfold string_of_runes. rewrite map_app, concat_app. reflexivity. Qed.

Lemma flat_snoc ms x : flat (ms ++ [x]) = flat ms ++ serial x.
Proof.
  unfold flat. rewrite map_app, concat_app. cbn. rewrite app_nil_r.
  reflexivity.
Qed.

Lemma serial_rune2moji r : serial (rune2moji r) = utf8.EncodeRune r.
Proof.
  unfold readline.rune2moji. destruct (isWavingWhiteFlagRune r);
    reflexivity.
Qed.

Lemma take_index (runes : list rune) (i : Z) (r : rune) :
  index runes i = Some r ->
  take (Z.to_nat (i + 1)) runes = take (Z.to_nat i) runes ++ [r].
Proof.
  intros Hr. apply index_inv in Hr as [Hi Hr].
  replace (Z.to_nat (i + 1)) with (S (Z.to_nat i)) by lia.
  apply take_S_r. exact Hr.
Qed.

Lemma reachable_flat runes i mojis :
  joinersAreZWJ runes ->
  reachable runes i mojis ->
  flat mojis = string_of_runes (take (Z.to_nat i) runes).
Proof.
  intros HZ. induction 1 as [|i mojis i' mojis' Hr IH Hlt Hb].
  - reflexivity.
  - destruct (reachable_step _ _ _ Hr Hlt) as (j & ms & Hb' & Hbr & _).
    rewrite Hb in Hb'. injection Hb' as <- <-.
    inversion Hbr as [r r1 ms0 x Hi Hi1 Hj _ E|r ms0 x Hi _ _ E
                     |r ms0 x Hi _ _ E|r Hi]; subst.
    + rewrite (take_index _ _ _ Hi1), (take_index _ _ _ Hi).
      rewrite !string_of_runes_app, <- IH, !flat_snoc.
      rewrite (HZ _ _ Hi Hj). cbn [serial]. unfold string_of_runes.
      cbn [map concat]. rewrite !app_nil_r, <- !app_assoc. reflexivity.
    + rewrite (take_index _ _ _ Hi), string_of_runes_app, <- IH.
      rewrite !flat_snoc. cbn [serial]. unfold string_of_runes.
      cbn [map concat]. rewrite !app_nil_r, <- !app_assoc. reflexivity.
    + rewrite (take_index _ _ _ Hi), string_of_runes_app, <- IH.
      rewrite !flat_snoc. cbn [serial]. unfold string_of_runes.
      cbn [map concat]. rewrite !app_nil_r, <- !app_assoc. reflexivity.
    + rewrite (take_index _ _ _ Hi), string_of_runes_app, <- IH.
      rewrite !flat_snoc, serial_rune2moji. unfold string_of_runes.
      cbn [map concat]. rewrite !app_nil_r. reflexivity.
Qed.

Lemma rangeWriteTo_Builder (ms : list Moji) (buf : Builder) :
  rangeWriteTo ms buf = (tt, buf ++ flat ms).
Proof.
  revert buf. induction ms as [|m ms IH]; intros buf; cbn [rangeWriteTo].
  - unfold io_ret, flat. cbn. rewrite app_nil_r. reflexivity.
  - unfold io_bind. rewrite WriteTo_Builder, IH. unfold flat. cbn [map concat].
    rewrite <- app_assoc. reflexivity.
Qed.

Lemma moji2string_flat (ms : list Moji) : moji2string ms = flat ms.
Proof. unfold moji2string, exec. rewrite rangeWriteTo_Builder. reflexivity. Qed.

(** Round trip where the join rule can only meet U+200D: flattening the
    composer's output gives back the string. *)
Lemma string2moji_roundtrip (runes : list rune) :
  joinersAreZWJ runes ->
  exists ms, string2moji runes = Done ms /\
             moji2string ms = string_of_runes runes.
Proof.
  intros HZ. destruct (string2moji_reaches runes) as (ms & j & Hs & Hr & Hj).
  exists ms. split; [exact Hs |].
  rewrite moji2string_flat, (reachable_flat _ _ _ HZ Hr).
  rewrite take_ge by (unfold len in Hj; lia). reflexivity.
Qed.

(** C9.  [string2moji] returns for every rune slice, with one iteration
    of fuel per rune and without an index panic; at every loop state it
    reaches, the body runs without panic, and once [i > 0] the slice
    [mojis] is not empty. *)
Theorem string2moji_total (runes : list rune) :
  (exists ms, string2moji runes = Done ms)
  /\ (forall i mojis,
        reachable runes i mojis -> i < len runes ->
        (0 < i -> mojis <> []) /\
        exists i' mojis', loop_body runes i mojis = Some (i', mojis')).
Proof.
  split.
  - destruct (string2moji_reaches runes) as (ms & j & Hs & _). eauto.
  - intros i mojis Hr Hlt. split.
    + apply (reachable_bounds _ _ _ Hr).
    + destruct (reachable_step _ _ _ Hr Hlt) as (i' & mojis' & Hb & _).
      eauto.
Qed.

(** C8.  With [ZeroWidthJoinSequenceOk] false, a Join-Control code point
    [j] between two code points that no other rule takes (as letters
    are) composes to three bare code points, one per rune.  Under every
    flag setting a one-rune string is one bare code point, and the first
    rune of a string is the code point its first Unit starts with: it is
    never attached to anything before it. *)
Theorem flag_gating_and_leading (a j b : rune) :
  (ZeroWidthJoinSequenceOk = false ->
   unicode.Join_Control j = true ->
   isVariationSelectorLike j = false ->
   isVariationSelectorLike b = false ->
   isEmojiModifier b = false ->
     string2moji [a; j; b] = Done [rune2moji a; rune2moji j; rune2moji b]
     /\ forallb isCodePoint [rune2moji a; rune2moji j; rune2moji b] = true)
  /\ (forall r, string2moji [r] = Done [rune2moji r]
                /\ isCodePoint (rune2moji r) = true)
  /\ (forall r rest, exists m ms,
        string2moji (r :: rest) = Done (m :: ms)
        /\ firstCodePoint m = rune2moji r).
Proof.
  split; [| split].
  - intros Hoff Hj Hvj Hvb Hmb. split.
    + unfold readline.string2moji. cbn [length].
      erewrite loop_step;
        [| reflexivity | apply loop_body_first; reflexivity].
      erewrite loop_step;
        [| reflexivity
         | apply loop_body_plain;
           [reflexivity
           | unfold readline.isZeroWidthJoin; rewrite Hoff; reflexivity
           | exact Hvj
           | apply Join_Control_not_modifier; exact Hj]].
      erewrite loop_step;
        [| reflexivity
         | apply loop_body_plain;
           [reflexivity
           | unfold readline.isZeroWidthJoin; rewrite Hoff; reflexivity
           | exact Hvb
           | exact Hmb]].
      reflexivity.
    + unfold readline.rune2moji.
      destruct (isWavingWhiteFlagRune a), (isWavingWhiteFlagRune j),
        (isWavingWhiteFlagRune b); reflexivity.
  - intros r. split.
    + unfold readline.string2moji. cbn [length].
      erewrite loop_step;
        [| reflexivity | apply loop_body_first; reflexivity].
      reflexivity.
    + unfold readline.rune2moji.
      destruct (isWavingWhiteFlagRune r); reflexivity.
  - intros r rest.
    destruct (string2moji_reaches (r :: rest)) as (ms & k & Hs & Hr & Hk).
    destruct (reachable_base _ _ _ _ Hr) as (m & tl & -> & Hm).
    + unfold len in Hk. cbn [length] in Hk. lia.
    + exists m, tl. split; assumption.
Qed.

End ComposerProperties.

Section JoinRule.

Variable ModifierSequenceOk : bool.
Variable isVariationSelectorLike : rune -> bool.
Variable isWavingWhiteFlagRune : rune -> bool.
Variable runeWidth : rune -> WidthT.

Local Abbreviation rune2moji := (rune2moji isWavingWhiteFlagRune).
Local Abbreviation string2moji :=
  (string2moji true ModifierSequenceOk isVariationSelectorLike
     isWavingWhiteFlagRune).
Local Abbreviation Width := (Width runeWidth).

Lemma join_one (a j b : rune) :
  unicode.Join_Control j = true ->
  string2moji [a; j; b] =
  Done [_ZeroWidthJoinSequence (rune2moji a) (_RawCodePoint b)].
Proof.
  intros Hj. unfold readline.string2moji. cbn [length].
  erewrite loop_step; [| reflexivity | apply loop_body_first; reflexivity].
  erewrite loop_step;
    [| reflexivity
     | eapply (loop_body_join _ _ _ _ _ 1 []);
       [reflexivity | reflexivity | exact Hj | reflexivity]].
  reflexivity.
Qed.

(** C5.  [Width] of a [_ZeroWidthJoinSequence] is the left width plus 1
    plus the right width; with [ZeroWidthJoinSequenceOk] true, three
    code points joined by two U+200D compose to one
    [_ZeroWidthJoinSequence] inside another, whose width is the sum of
    the three code points' widths plus 2. *)
Theorem ZeroWidthJoinSequence_Width (s0 s1 : Moji) (p h q : rune) :
  Width (_ZeroWidthJoinSequence s0 s1) = Width s0 + 1 + Width s1
  /\ string2moji [p; 0x200D; h; 0x200D; q] =
     Done [_ZeroWidthJoinSequence
             (_ZeroWidthJoinSequence (rune2moji p) (_RawCodePoint h))
             (_RawCodePoint q)]
  /\ Width (_ZeroWidthJoinSequence
              (_ZeroWidthJoinSequence (rune2moji p) (_RawCodePoint h))
              (_RawCodePoint q))
     = Width (rune2moji p) + Width (_RawCodePoint h)
       + Width (_RawCodePoint q) + 2
  /\ Width (rune2moji p) = runeWidth p.
Proof.
  split; [reflexivity | split; [| split]].
  - unfold readline.string2moji. cbn [length].
    erewrite loop_step; [| reflexivity | apply loop_body_first; reflexivity].
    erewrite loop_step;
      [| reflexivity
       | eapply (loop_body_join _ _ _ _ _ 1 []); reflexivity].
    erewrite loop_step;
      [| reflexivity
       | eapply (loop_body_join _ _ _ _ _ 3 []); reflexivity].
    reflexivity.
  - cbn [readline.Width]. lia.
  - unfold readline.rune2moji. destruct (isWavingWhiteFlagRune p);
      reflexivity.
Qed.

(** C10.  With [ZeroWidthJoinSequenceOk] true the join rule takes every
    Join-Control code point, U+200C included; [WriteTo] of the sequence
    puts U+200D between the operands' bytes; so "a" U+200C "b" (any code
    points [a], [b]) flattens to "a" U+200D "b", which is not the input. *)
Theorem join_rule_rewrites_ZWNJ :
  (forall j, unicode.Join_Control j = true -> isZeroWidthJoin true j = true)
  /\ unicode.Join_Control 0x200C = true
  /\ (forall s0 s1 (buf : Builder),
        exec (WriteTo (_ZeroWidthJoinSequence s0 s1)) buf =
        buf ++ exec (WriteTo s0) ([] : Builder)
            ++ utf8.EncodeRune 0x200D
            ++ exec (WriteTo s1) ([] : Builder))
  /\ (forall a b, exists ms,
        string2moji [a; 0x200C; b] = Done ms
        /\ ms = [_ZeroWidthJoinSequence (rune2moji a) (_RawCodePoint b)]
        /\ moji2string ms = string_of_runes [a; 0x200D; b]
        /\ moji2string ms <> string_of_runes [a; 0x200C; b]).
Proof.
  split; [| split; [| split]].
  - intros j Hj. unfold isZeroWidthJoin. rewrite Hj. reflexivity.
  - reflexivity.
  - intros s0 s1 buf. unfold exec. rewrite !WriteTo_Builder.
    cbn [snd serial]. reflexivity.
  - intros a b. eexists. split; [apply join_one; reflexivity |].
    split; [reflexivity |].
    assert (E : moji2string
                  [_ZeroWidthJoinSequence (rune2moji a) (_RawCodePoint b)]
                = string_of_runes [a; 0x200D; b]).
    { rewrite moji2string_flat. unfold flat, string_of_runes.
      cbn [map concat serial]. rewrite serial_rune2moji, !app_nil_r.
      rewrite <- ?app_assoc. reflexivity. }
    split; [exact E |]. rewrite E. unfold string_of_runes.
    cbn [map concat]. intros Heq. apply app_inv_head in Heq.
    rewrite EncodeRune_ZWJ, EncodeRune_ZWNJ in Heq. discriminate Heq.
Qed.

End JoinRule.

(** ** Round trip *)

Lemma joinersAreZWJ_off (runes : list rune) : joinersAreZWJ false runes.
Proof. intros i r _ Hj. discriminate Hj. Qed.

Lemma joinersAreZWJ_no_ZWNJ (ok : bool) (runes : list rune) :
  0x200C ∉ runes -> joinersAreZWJ ok runes.
Proof.
  intros Hno i r Hr Hj. unfold isZeroWidthJoin in Hj.
  apply andb_true_iff in Hj as [_ Hj]. unfold unicode.Join_Control in Hj.
  apply andb_true_iff in Hj as [Hlo Hhi].
  apply Z.leb_le in Hlo. apply Z.leb_le in Hhi.
  apply index_inv in Hr as [_ Hr]. apply list_elem_of_lookup_2 in Hr.
  unfold zeroWidthJoinRune.
  destruct (Z.eq_dec r 0x200C) as [->|Hne]; [contradiction | lia].
Qed.


(** C2 at "a" U+200C "b" with [ZeroWidthJoinSequenceOk] true: the
    composer makes one [_ZeroWidthJoinSequence], and flattening it gives
    "a" U+200D "b": the code point U+200C of the input is not re-emitted. *)
Theorem moji2string_string2moji_ZWNJ :
  string2moji true true (Example.isVariationSelectorLike true)
    Example.isWavingWhiteFlagRune [0x61; 0x200C; 0x62]
  = Done [_ZeroWidthJoinSequence (_RawCodePoint 0x61) (_RawCodePoint 0x62)]
  /\ moji2string
       [_ZeroWidthJoinSequence (_RawCodePoint 0x61) (_RawCodePoint 0x62)]
     = [0x61; 0xE2; 0x80; 0x8D; 0x62]
  /\ string_of_runes [0x61; 0x200C; 0x62] = [0x61; 0xE2; 0x80; 0x8C; 0x62]
  /\ string_of_runes [0x61; 0x200D; 0x62] = [0x61; 0xE2; 0x80; 0x8D; 0x62].
Proof. repeat split. Qed.

(** ** Runs on concrete inputs *)

(** The keycap sequence "1" U+FE0F is two columns wide here. *)
Example keycap_PrintTo :
  printed Example.runeWidth Example.codePointPrint
    (_VariationSequence (_RawCodePoint 0x31) (_RawCodePoint 0xFE0F))
  = [0x20; 0x20; 0x1B; 0x37; 0x08; 0x08; 0x31; 0xEF; 0xB8; 0x8F; 0x1B; 0x38].
Proof. reflexivity. Qed.

(** Person, heart, person joined by U+200D compose to one Unit. *)
Example family_compose :
  Example.compose [0x1F469; 0x200D; 0x2764; 0x200D; 0x1F469]
  = Done [_ZeroWidthJoinSequence
            (_ZeroWidthJoinSequence (_RawCodePoint 0x1F469)
               (_RawCodePoint 0x2764))
            (_RawCodePoint 0x1F469)].
Proof. reflexivity. Qed.

(** C1 as stated fails: thumbs-up with a skin tone, joined to the same,
    has a [_ModifierSequence] (not the flag code point) as left operand,
    and its [PrintTo] emits exactly the [WriteTo] bytes, with no spaces,
    ESC 7, backspaces or ESC 8 around them. *)
Lemma ZeroWidthJoinSequence_PrintTo_not_anchored :
  let s0 := _ModifierSequence (_RawCodePoint 0x1F44D) (_RawCodePoint 0x1F3FD) in
  let s := _ZeroWidthJoinSequence s0 s0 in
  isWavingWhiteFlag s0 = false
  /\ printed Example.runeWidth Example.codePointPrint s = written s
  /\ printed Example.runeWidth Example.codePointPrint s
     <> cursorAnchored (Width Example.runeWidth s) (written s).
Proof.
  cbv zeta. split; [reflexivity | split; [reflexivity |]].
  intros Heq. vm_compute in Heq. discriminate Heq.
Qed.

(** The two branches of [PrintTo] on "a" ZWJ "b" and on flag ZWJ rainbow. *)
Lemma ZeroWidthJoinSequence_PrintTo_witness :
  (isWavingWhiteFlag (_RawCodePoint 0x61) = false
   /\ exec (PrintTo Example.runeWidth Example.codePointPrint
              (_ZeroWidthJoinSequence (_RawCodePoint 0x61)
                 (_RawCodePoint 0x62))) ([] : Builder)
      = [] ++ printed Example.runeWidth Example.codePointPrint
                (_RawCodePoint 0x61)
           ++ utf8.EncodeRune zeroWidthJoinRune
           ++ printed Example.runeWidth Example.codePointPrint
                (_RawCodePoint 0x62))
  /\ (isWavingWhiteFlag (_WavingWhiteFlagCodePoint 0x1F3F3) = true
      /\ exec (PrintTo Example.runeWidth Example.codePointPrint
                 (_ZeroWidthJoinSequence (_WavingWhiteFlagCodePoint 0x1F3F3)
                    (_RawCodePoint 0x1F308))) ([] : Builder)
         = [] ++ cursorAnchored 5
                   (written (_WavingWhiteFlagCodePoint 0x1F3F3)
                    ++ utf8.EncodeRune zeroWidthJoinRune
                    ++ written (_RawCodePoint 0x1F308))).
Proof.
  split; (split; [reflexivity |]).
  - apply (proj1 (ZeroWidthJoinSequence_PrintTo Example.runeWidth
                    Example.codePointPrint (_RawCodePoint 0x61)
                    (_RawCodePoint 0x62) [])).
    reflexivity.
  - apply (proj2 (ZeroWidthJoinSequence_PrintTo Example.runeWidth
                    Example.codePointPrint (_WavingWhiteFlagCodePoint 0x1F3F3)
                    (_RawCodePoint 0x1F308) [])).
    reflexivity.
Defined.

(** "a" ZWJ "b": the run returns, and the state before the joiner is safe. *)
Lemma string2moji_total_witness :
  let runes := [0x61; 0x200D; 0x62] in
  (exists ms, Example.compose runes = Done ms)
  /\ ((0 < 1 -> [_RawCodePoint 0x61] <> [])
      /\ exists i' mojis',
           loop_body true true (Example.isVariationSelectorLike true)
             Example.isWavingWhiteFlagRune runes 1 [_RawCodePoint 0x61]
           = Some (i', mojis')).
Proof.
  cbv zeta. split.
  - apply (proj1 (string2moji_total true true
                    (Example.isVariationSelectorLike true)
                    Example.isWavingWhiteFlagRune [0x61; 0x200D; 0x62])).
  - apply (proj2 (string2moji_total true true
                    (Example.isVariationSelectorLike true)
                    Example.isWavingWhiteFlagRune [0x61; 0x200D; 0x62])).
    + change 1 with (0 + 1).
      eapply reach_next; [apply reach_start | reflexivity | reflexivity].
    + reflexivity.
Defined.

(** "a" ZWJ "b" with [ZeroWidthJoinSequenceOk] false. *)
Lemma flag_gating_and_leading_witness :
  string2moji false true (Example.isVariationSelectorLike true)
    Example.isWavingWhiteFlagRune [0x61; 0x200D; 0x62]
  = Done [_RawCodePoint 0x61; _RawCodePoint 0x200D; _RawCodePoint 0x62].
Proof.
  apply (proj1 (flag_gating_and_leading false true
                  (Example.isVariationSelectorLike true)
                  Example.isWavingWhiteFlagRune 0x61 0x200D 0x62));
    reflexivity.
Defined.

(** U+200C is taken by the join rule. *)
Lemma join_rule_rewrites_ZWNJ_witness :
  unicode.Join_Control 0x200C = true /\ isZeroWidthJoin true 0x200C = true.
Proof.
  split; [reflexivity |].
  apply (proj1 (join_rule_rewrites_ZWNJ true
                  (Example.isVariationSelectorLike true)
                  Example.isWavingWhiteFlagRune) 0x200C).
  reflexivity.
Defined.

(** ** Growing a string at its end *)

Lemma index_app_l {A} (l1 l2 : list A) (i : Z) :
  i < len l1 -> index (l1 ++ l2) i = index l1 i.
Proof.
  intros Hi. unfold index. rewrite len_app. pose proof (len_nonneg l2).
  destruct (Z.leb_spec 0 i); [| reflexivity].
  destruct (Z.ltb_spec i (len l1)); [| lia].
  destruct (Z.ltb_spec i (len l1 + len l2)); [| lia].
  cbn [andb]. apply lookup_app_l. unfold len in Hi. lia.
Qed.

Lemma index_app_last {A} (l : list A) (x : A) :
  index (l ++ [x]) (len l) = Some x.
Proof.
  replace (len l) with (len (l ++ [x]) - 1) by (rewrite len_snoc; lia).
  apply index_last.
Qed.

Lemma len_lt_snoc {A} (l : list A) (x : A) : len l < len (l ++ [x]).
Proof. rewrite len_snoc. lia. Qed.

Section Append.

Variable ZeroWidthJoinSequenceOk : bool.
Variable ModifierSequenceOk : bool.
Variable isVariationSelectorLike : rune -> bool.
Variable isWavingWhiteFlagRune : rune -> bool.

Local Abbreviation isZeroWidthJoin := (isZeroWidthJoin ZeroWidthJoinSequenceOk).
Local Abbreviation isEmojiModifier := (isEmojiModifier ModifierSequenceOk).
Local Abbreviation rune2moji := (rune2moji isWavingWhiteFlagRune).
Local Abbreviation loop_body :=
  (loop_body ZeroWidthJoinSequenceOk ModifierSequenceOk
     isVariationSelectorLike isWavingWhiteFlagRune).
Local Abbreviation loop :=
  (loop ZeroWidthJoinSequenceOk ModifierSequenceOk
     isVariationSelectorLike isWavingWhiteFlagRune).
Local Abbreviation string2moji :=
  (string2moji ZeroWidthJoinSequenceOk ModifierSequenceOk
     isVariationSelectorLike isWavingWhiteFlagRune).
Local Abbreviation reachable :=
  (reachable ZeroWidthJoinSequenceOk ModifierSequenceOk
     isVariationSelectorLike isWavingWhiteFlagRune).
Local Abbreviation attach :=
  (attachLast isVariationSelectorLike isEmojiModifier isWavingWhiteFlagRune).
Local Abbreviation openEnded := (openEnded ZeroWidthJoinSequenceOk).

Lemma loop_body_index runes i mojis i' mojis' :
  loop_body runes i mojis = Some (i', mojis') ->
  i <= i' /\ i' + 1 <= Z.max (i + 1) (len runes).
Proof.
  unfold readline.loop_body. destruct (index runes i) as [r|];
    cbn [mbind option_bind]; [| discriminate].
  destruct (isZeroWidthJoin r && (0 <? i) && (i + 1 <? len runes)) eqn:Hc.
  - apply andb_true_iff in Hc as [_ Hc]. apply Z.ltb_lt in Hc.
    destruct (index mojis _); cbn [mbind option_bind]; [| discriminate].
    destruct (index runes (i + 1)); cbn [mbind option_bind]; [| discriminate].
    destruct (store mojis _ _); cbn [mbind option_bind]; [| discriminate].
    intros E. injection E as <- <-. lia.
  - destruct (isVariationSelectorLike r && (0 <? i)).
    { destruct (index mojis _); cbn [mbind option_bind]; [| discriminate].
      destruct (store mojis _ _); cbn [mbind option_bind]; [| discriminate].
      intros E. injection E as <- <-. lia. }
    destruct (isEmojiModifier r && (0 <? i)).
    { destruct (index mojis _); cbn [mbind option_bind]; [| discriminate].
      destruct (store mojis _ _); cbn [mbind option_bind]; [| discriminate].
      intros E. injection E as <- <-. lia. }
    intros E. injection E as <- <-. lia.
Qed.

Lemma loop_body_app runes r i mojis :
  i < len runes -> openEnded runes ->
  loop_body (runes ++ [r]) i mojis = loop_body runes i mojis.
Proof.
  intros Hi Hopen. unfold readline.loop_body.
  rewrite (index_app_l runes [r] i Hi).
  destruct (index runes i) as [l|] eqn:Hl;
    cbn [mbind option_bind]; [| reflexivity].
  rewrite len_snoc. destruct (Z.ltb_spec (i + 1) (len runes)) as [Hn|Hn].
  - destruct (Z.ltb_spec (i + 1) (len runes + 1)); [| lia].
    rewrite (index_app_l runes [r] (i + 1) Hn). reflexivity.
  - destruct (Z.ltb_spec (i + 1) (len runes + 1)); [| lia].
    rewrite !andb_true_r, !andb_false_r.
    assert (Hlast : i = len runes - 1) by lia.
    destruct (Z.ltb_spec 0 i) as [Hpos|Hz]; rewrite ?andb_false_r;
      [| reflexivity].
    rewrite (Hopen l); [reflexivity | subst i; exact Hl | lia].
Qed.

Lemma loop_app runes r (fuel : nat) :
  openEnded runes ->
  forall i mojis ms,
    i <= len runes ->
    loop fuel runes i mojis = Done ms ->
    loop (S fuel) (runes ++ [r]) i mojis
    = loop 1 (runes ++ [r]) (len runes) ms.
Proof.
  intros Hopen. induction fuel as [|fuel IH]; intros i mojis ms Hi Hrun.
  - cbn [readline.loop] in Hrun.
    destruct (Z.ltb_spec i (len runes)); [discriminate |].
    injection Hrun as ->. replace i with (len runes) by lia. reflexivity.
  - cbn [readline.loop] in Hrun.
    destruct (Z.ltb_spec i (len runes)) as [Hlt|Hge].
    + destruct (loop_body runes i mojis) as [[i' mojis']|] eqn:Hb;
        [| discriminate].
      destruct (loop_body_index _ _ _ _ _ Hb) as [Hlo Hhi].
      rewrite (loop_step _ _ _ _ (S fuel) (runes ++ [r]) i mojis i' mojis').
      * apply IH; [lia | exact Hrun].
      * rewrite len_snoc. lia.
      * rewrite loop_body_app; assumption.
    + injection Hrun as ->. replace i with (len runes) by lia.
      destruct (loop_body (runes ++ [r]) (len runes) ms)
        as [[i' mojis']|] eqn:Hb.
      * destruct (loop_body_index _ _ _ _ _ Hb) as [Hlo _].
        rewrite !(loop_step _ _ _ _ _ _ _ _ _ _ (len_lt_snoc runes r) Hb).
        rewrite !loop_done by (rewrite len_snoc; lia). reflexivity.
      * cbn [readline.loop]. rewrite len_snoc.
        destruct (Z.ltb_spec (len runes) (len runes + 1)); [| lia].
        rewrite Hb. reflexivity.
Qed.

Lemma string2moji_snoc runes r ms :
  openEnded runes -> string2moji runes = Done ms ->
  string2moji (runes ++ [r]) = loop 1 (runes ++ [r]) (len runes) ms.
Proof.
  intros Hopen Hrun. unfold readline.string2moji.
  rewrite length_app. cbn [length]. rewrite Nat.add_1_r.
  apply loop_app; [exact Hopen | apply len_nonneg | exact Hrun].
Qed.

Lemma last_step runes r ms0 x :
  0 < len runes ->
  loop 1 (runes ++ [r]) (len runes) (ms0 ++ [x]) = Done (attach ms0 x r).
Proof.
  intros Hpos.
  assert (Hb : loop_body (runes ++ [r]) (len runes) (ms0 ++ [x])
               = Some (len runes, attach ms0 x r)).
  { unfold readline.loop_body, attachLast.
    rewrite index_app_last. cbn [mbind option_bind]. rewrite len_snoc.
    destruct (Z.ltb_spec (len runes + 1) (len runes + 1)); [lia |].
    destruct (Z.ltb_spec 0 (len runes)); [| lia].
    rewrite !andb_false_r, !andb_true_r, !index_last.
    cbn [mbind option_bind]. rewrite !store_last. cbn [mbind option_bind].
    destruct (isVariationSelectorLike r); [reflexivity |].
    destruct (isEmojiModifier r); [reflexivity |].
    rewrite <- app_assoc. reflexivity. }
  rewrite (loop_step _ _ _ _ _ _ _ _ _ _ (len_lt_snoc runes r) Hb).
  apply loop_done. rewrite len_snoc. lia.
Qed.

Lemma string2moji_nil : string2moji [] = Done [].
Proof. reflexivity. Qed.

Lemma string2moji_single r : string2moji [r] = Done [rune2moji r].
Proof.
  unfold readline.string2moji. cbn [length].
  erewrite loop_step; [| reflexivity | apply loop_body_first; reflexivity].
  reflexivity.
Qed.

Lemma string2moji_snoc_attach runes r ms0 x :
  openEnded runes -> string2moji runes = Done (ms0 ++ [x]) ->
  string2moji (runes ++ [r]) = Done (attach ms0 x r).
Proof.
  intros Hopen Hrun. rewrite (string2moji_snoc _ _ _ Hopen Hrun).
  apply last_step. destruct runes as [|r0 runes].
  - rewrite string2moji_nil in Hrun. injection Hrun as E.
    symmetry in E. apply app_eq_nil in E as [_ E]. discriminate E.
  - unfold len. cbn [length]. lia.
Qed.

Lemma openEnded_cons r0 (rest : list rune) :
  Forall (fun s => isZeroWidthJoin s = false) rest -> openEnded (r0 :: rest).
Proof.
  intros Hall l Hl Hlen. apply index_inv in Hl as [_ Hl].
  unfold len in Hl, Hlen. cbn [length] in Hl, Hlen.
  destruct rest as [|r1 rest]; [cbn [length] in Hlen; lia |].
  replace (Z.to_nat (Z.of_nat (S (length (r1 :: rest))) - 1))
    with (S (length (r1 :: rest) - 1)) in Hl by (cbn [length]; lia).
  cbn [lookup list_lookup] in Hl.
  rewrite Forall_lookup in Hall. eapply Hall. exact Hl.
Qed.

(** X5.  A rune added at the end of a string only touches the last Unit:
    it wraps it (selector, modifier) or follows it as a new bare code
    point; all Units before the last are as they were. *)
Theorem string2moji_append_rune (runes : list rune) (r : rune) :
  runes <> [] -> openEnded runes ->
  exists ms0 x,
    string2moji runes = Done (ms0 ++ [x]) /\
    string2moji (runes ++ [r]) = Done (attach ms0 x r).
Proof.
  intros Hne Hopen.
  destruct (string2moji_reaches ZeroWidthJoinSequenceOk ModifierSequenceOk
              isVariationSelectorLike isWavingWhiteFlagRune runes)
    as (ms & j & Hrun & Hreach & Hj).
  destruct (reachable_bounds _ _ _ _ _ _ _ Hreach) as [_ Hnonempty].
  destruct (nonempty_snoc ms) as (ms0 & x & ->).
  - apply Hnonempty. destruct runes; [congruence |].
    unfold len in Hj. cbn [length] in Hj. lia.
  - exists ms0, x. split; [exact Hrun |].
    apply string2moji_snoc_attach; assumption.
Qed.

(** X6.  Selectors and modifiers typed after a code point stack on it: the
    string composes to one Unit, each rune wrapping what came before. *)
Theorem string2moji_stack (r0 : rune) (sfx : list rune) :
  Forall (fun s => isZeroWidthJoin s = false /\
                   (isVariationSelectorLike s = true \/
                    isEmojiModifier s = true)) sfx ->
  string2moji (r0 :: sfx)
  = Done [fold_left (wrap isVariationSelectorLike) sfx (rune2moji r0)].
Proof.
  induction sfx as [|s sfx IH] using rev_ind; intros Hall.
  - apply string2moji_single.
  - apply Forall_app in Hall as [Hall Hs].
    pose proof (proj1 (Forall_singleton _ _) Hs) as [_ Hs'].
    clear Hs. rename Hs' into Hs. rewrite app_comm_cons.
    rewrite (string2moji_snoc_attach (r0 :: sfx) s []
               (fold_left (wrap isVariationSelectorLike) sfx (rune2moji r0))).
    + rewrite fold_left_app. cbn [fold_left].
      unfold attachLast, wrap.
      destruct (isVariationSelectorLike s); [reflexivity |].
      destruct Hs as [Hs|Hs]; [discriminate Hs |]. rewrite Hs. reflexivity.
    + apply openEnded_cons. eapply Forall_impl; [exact Hall |].
      intros ? [? _]. assumption.
    + apply IH. exact Hall.
Qed.

(** X4.  Where no rune after the first is a joiner, selector or modifier
    (by the flags or by the text), the composer makes one bare code point
    per rune, in order. *)
Theorem string2moji_plain (r0 : rune) (rest : list rune) :
  Forall (fun s => isZeroWidthJoin s = false /\
                   isVariationSelectorLike s = false /\
                   isEmojiModifier s = false) rest ->
  string2moji (r0 :: rest) = Done (map rune2moji (r0 :: rest)).
Proof.
  induction rest as [|s rest IH] using rev_ind; intros Hall.
  - apply string2moji_single.
  - apply Forall_app in Hall as [Hall Hs].
    pose proof (proj1 (Forall_singleton _ _) Hs) as (_ & Hv & Hm).
    rewrite app_comm_cons.
    assert (Hnil : r0 :: rest <> []) by discriminate.
    destruct (nonempty_snoc (map rune2moji (r0 :: rest))) as (ms0 & x & E).
    { discriminate. }
    rewrite (string2moji_snoc_attach (r0 :: rest) s ms0 x).
    + unfold attachLast. rewrite Hv, Hm.
      replace (ms0 ++ [x; rune2moji s]) with ((ms0 ++ [x]) ++ [rune2moji s])
        by (rewrite <- app_assoc; reflexivity).
      rewrite <- E, map_app. reflexivity.
    + apply openEnded_cons. eapply Forall_impl; [exact Hall |].
      intros ? [? _]. assumption.
    + rewrite <- E. apply IH. exact Hall.
Qed.

End Append.

(** ** Shape and content of the composer's output *)

Section Shape.

Variable ZeroWidthJoinSequenceOk : bool.
Variable ModifierSequenceOk : bool.
Variable isVariationSelectorLike : rune -> bool.
Variable isWavingWhiteFlagRune : rune -> bool.

Local Abbreviation isZeroWidthJoin := (isZeroWidthJoin ZeroWidthJoinSequenceOk).
Local Abbreviation rune2moji := (rune2moji isWavingWhiteFlagRune).
Local Abbreviation string2moji :=
  (string2moji ZeroWidthJoinSequenceOk ModifierSequenceOk
     isVariationSelectorLike isWavingWhiteFlagRune).
Local Abbreviation reachable :=
  (reachable ZeroWidthJoinSequenceOk ModifierSequenceOk
     isVariationSelectorLike isWavingWhiteFlagRune).
Local Abbreviation branch :=
  (branch ZeroWidthJoinSequenceOk ModifierSequenceOk
     isVariationSelectorLike isWavingWhiteFlagRune).

Lemma leftNested_rune2moji r : leftNested (rune2moji r) = true.
Proof.
  unfold readline.rune2moji. destruct (isWavingWhiteFlagRune r); reflexivity.
Qed.

Lemma branch_shape runes i mojis i' mojis' :
  branch runes i mojis i' mojis' ->
  Forall (fun m => leftNested m = true) mojis ->
  Forall (fun m => leftNested m = true) mojis' /\
  (len mojis' <= len mojis + 1) /\ i' + 1 <= Z.max (i + 1) (len runes).
Proof.
  intros Hb Hall.
  destruct Hb as [r r1 ms x Hr Hr1 _ _ ->|r ms x Hr _ _ ->
                 |r ms x Hr _ _ ->|r Hr];
    try apply index_inv in Hr1 as [? _]; apply index_inv in Hr as [? _];
    try (apply Forall_app in Hall as [Hms Hx];
         pose proof (proj1 (Forall_singleton _ _) Hx) as Hx';
         split; [apply Forall_app; split; [exact Hms |];
                 apply Forall_singleton; cbn [leftNested];
                 rewrite Hx'; reflexivity
                | rewrite !len_snoc; lia]).
  split; [| rewrite len_snoc; lia].
  apply Forall_app; split; [exact Hall |].
  apply Forall_singleton. apply leftNested_rune2moji.
Qed.

Lemma reachable_shape runes i mojis :
  reachable runes i mojis ->
  Forall (fun m => leftNested m = true) mojis /\
  len mojis <= i <= len runes.
Proof.
  induction 1 as [|i mojis i' mojis' Hr (IHs & IHl) Hlt Hb].
  - split; [constructor |]. pose proof (len_nonneg runes).
    unfold len at 1. cbn [length]. lia.
  - destruct (reachable_step _ _ _ _ _ _ _ Hr Hlt)
      as (j & ms & Hb' & Hbr & _).
    rewrite Hb in Hb'. injection Hb' as <- <-.
    destruct (branch_shape _ _ _ _ _ Hbr IHs) as (Hs & Hl & Hi).
    destruct (reachable_bounds _ _ _ _ _ _ _ Hr) as [H0 _].
    destruct (branch_bounds _ _ _ _ _ _ _ _ _ H0 Hbr) as [? _].
    split; [exact Hs | lia].
Qed.

(** X3.  Every Unit the composer makes is grown leftwards (each right
    operand is one raw code point), there are at most as many Units as
    runes, and the output is empty only for the empty string. *)
Theorem string2moji_shape (runes : list rune) :
  exists ms,
    string2moji runes = Done ms /\
    Forall (fun m => leftNested m = true) ms /\
    (length ms <= length runes)%nat /\
    (ms = [] <-> runes = []).
Proof.
  destruct (string2moji_reaches ZeroWidthJoinSequenceOk ModifierSequenceOk
              isVariationSelectorLike isWavingWhiteFlagRune runes)
    as (ms & j & Hrun & Hreach & Hj).
  destruct (reachable_shape _ _ _ Hreach) as (Hs & Hl).
  destruct (reachable_bounds _ _ _ _ _ _ _ Hreach) as [_ Hne].
  exists ms. repeat split; try assumption.
  - unfold len in Hl. lia.
  - intros ->. destruct runes; [reflexivity |].
    exfalso. apply Hne; [| reflexivity].
    unfold len in Hj. cbn [length] in Hj. lia.
  - intros ->. destruct ms; [reflexivity |].
    unfold len in Hl. cbn [length] in Hl. lia.
Qed.

Lemma flattensTo_refl r : flattensTo r r.
Proof. left. reflexivity. Qed.

Lemma flattensTo_join r :
  isZeroWidthJoin r = true -> flattensTo zeroWidthJoinRune r.
Proof.
  unfold readline.isZeroWidthJoin, unicode.Join_Control. intros Hj.
  apply andb_true_iff in Hj as [_ Hj]. apply andb_true_iff in Hj as [Hlo Hhi].
  apply Z.leb_le in Hlo. apply Z.leb_le in Hhi. unfold flattensTo.
  unfold zeroWidthJoinRune. lia.
Qed.

Lemma reachable_flattens runes i mojis :
  reachable runes i mojis ->
  exists rs,
    flat mojis = string_of_runes rs /\
    Forall2 flattensTo rs (take (Z.to_nat i) runes).
Proof.
  induction 1 as [|i mojis i' mojis' Hr (rs & IHf & IHr) Hlt Hb].
  - exists []. split; [reflexivity | constructor].
  - destruct (reachable_step _ _ _ _ _ _ _ Hr Hlt)
      as (j & ms & Hb' & Hbr & _).
    rewrite Hb in Hb'. injection Hb' as <- <-.
    inversion Hbr as [r r1 ms0 x Hi Hi1 Hj _ E|r ms0 x Hi _ _ E
                     |r ms0 x Hi _ _ E|r Hi]; subst.
    + exists (rs ++ [zeroWidthJoinRune; r1]). split.
      * rewrite string_of_runes_app, <- IHf, !flat_snoc. cbn [serial].
        unfold string_of_runes. cbn [map concat].
        rewrite !app_nil_r, <- !app_assoc. reflexivity.
      * rewrite (take_index _ _ _ Hi1), (take_index _ _ _ Hi), <- app_assoc.
        apply Forall2_app; [exact IHr |].
        constructor; [apply flattensTo_join; exact Hj |].
        constructor; [apply flattensTo_refl | constructor].
    + exists (rs ++ [r]). split.
      * rewrite string_of_runes_app, <- IHf, !flat_snoc. cbn [serial].
        unfold string_of_runes. cbn [map concat].
        rewrite !app_nil_r, <- !app_assoc. reflexivity.
      * rewrite (take_index _ _ _ Hi). apply Forall2_app; [exact IHr |].
        constructor; [apply flattensTo_refl | constructor].
    + exists (rs ++ [r]). split.
      * rewrite string_of_runes_app, <- IHf, !flat_snoc. cbn [serial].
        unfold string_of_runes. cbn [map concat].
        rewrite !app_nil_r, <- !app_assoc. reflexivity.
      * rewrite (take_index _ _ _ Hi). apply Forall2_app; [exact IHr |].
        constructor; [apply flattensTo_refl | constructor].
    + exists (rs ++ [r]). split.
      * rewrite string_of_runes_app, <- IHf, !flat_snoc.
        rewrite serial_rune2moji. unfold string_of_runes. cbn [map concat].
        rewrite !app_nil_r. reflexivity.
      * rewrite (take_index _ _ _ Hi). apply Forall2_app; [exact IHr |].
        constructor; [apply flattensTo_refl | constructor].
Qed.

(** X2.  Flattening the composer's output gives the input string rune for
    rune, except that a U+200C of the input may come back as U+200D;
    nothing is dropped, added or reordered. *)
Theorem moji2string_string2moji_runes (runes : list rune) :
  exists ms rs,
    string2moji runes = Done ms /\
    moji2string ms = string_of_runes rs /\
    Forall2 flattensTo rs runes.
Proof.
  destruct (string2moji_reaches ZeroWidthJoinSequenceOk ModifierSequenceOk
              isVariationSelectorLike isWavingWhiteFlagRune runes)
    as (ms & j & Hrun & Hreach & Hj).
  destruct (reachable_flattens _ _ _ Hreach) as (rs & Hf & Hr).
  exists ms, rs. repeat split; [exact Hrun | |].
  - rewrite moji2string_flat. exact Hf.
  - rewrite take_ge in Hr by (unfold len in Hj; lia). exact Hr.
Qed.

End Shape.

(** X8.  [moji2string] of two Unit sequences one after the other is the
    concatenation of their strings. *)
Theorem moji2string_app (ms1 ms2 : list Moji) :
  moji2string (ms1 ++ ms2) = moji2string ms1 ++ moji2string ms2.
Proof.
  rewrite !moji2string_flat. unfold flat. rewrite map_app, concat_app.
  reflexivity.
Qed.

(** ** WriteTo on a stream that keeps the io.Writer contract *)

Section Contract.

Context {W : Type} `{Writer W}.
Variable out : W -> list byte.
Hypothesis out_lawful : lawful out.

Lemma writeRune_prefix (r : rune) :
  writesPrefixOf out (writeRune r) (utf8.EncodeRune r).
Proof. intros w n e w' Hrun. apply (out_lawful _ _ _ _ _ Hrun). Qed.

Lemma thenWrite_prefix (a b : io W (Z * option error)) (bs1 bs2 : list byte) :
  writesPrefixOf out a bs1 -> writesPrefixOf out b bs2 ->
  writesPrefixOf out (thenWrite a b) (bs1 ++ bs2).
Proof.
  intros Ha Hb w n e w' Hrun. unfold thenWrite, io_bind in Hrun.
  destruct (a w) as [[n1 e1] w1] eqn:E1.
  destruct (Ha _ _ _ _ E1) as (Hn1 & Ho1 & He1).
  pose proof (len_nonneg bs2) as Hl2. rewrite len_app.
  destruct e1 as [err|].
  - injection Hrun as <- <- <-. split; [lia |]. split; [| discriminate].
    rewrite Ho1, take_app_le by (unfold len in Hn1; lia). reflexivity.
  - specialize (He1 eq_refl). subst n1.
    destruct (b w1) as [[n2 e2] w2] eqn:E2.
    destruct (Hb _ _ _ _ E2) as (Hn2 & Ho2 & He2).
    injection Hrun as <- <- <-. split; [lia |]. split.
    + rewrite Ho2, Ho1, take_app, <- app_assoc.
      rewrite (take_ge bs1 (Z.to_nat (len bs1))) by (unfold len; lia).
      rewrite (take_ge bs1 (Z.to_nat (len bs1 + n2))) by (unfold len; lia).
      replace (Z.to_nat (len bs1 + n2) - length bs1)%nat with (Z.to_nat n2)
        by (unfold len; lia).
      reflexivity.
    + intros He. rewrite (He2 He). reflexivity.
Qed.

Lemma WriteTo_ZeroWidthJoinSequence_thenWrite (s0 s1 : Moji) (w : W) :
  WriteTo (_ZeroWidthJoinSequence s0 s1) w =
  thenWrite (WriteTo s0) (thenWrite (writeRune zeroWidthJoinRune) (WriteTo s1))
    w.
Proof.
  cbn [WriteTo]. unfold thenWrite, io_bind, io_ret.
  destruct (WriteTo s0 w) as [[n1 [e1|]] w1]; [reflexivity |].
  destruct (writeRune zeroWidthJoinRune w1) as [[n2 [e2|]] w2]; [reflexivity |].
  destruct (WriteTo s1 w2) as [[n3 e3] w3]. rewrite Z.add_assoc. reflexivity.
Qed.

Lemma WriteTo_prefix (m : Moji) : writesPrefixOf out (WriteTo m) (serial m).
Proof.
  induction m as [c|c|s0 IH0 s1 IH1|s0 IH0 s1 IH1|s0 IH0 s1 IH1];
    cbn [serial].
  - apply writeRune_prefix.
  - apply writeRune_prefix.
  - intros w n e w' Hrun. rewrite WriteTo_ZeroWidthJoinSequence_thenWrite in Hrun.
    revert w n e w' Hrun.
    apply thenWrite_prefix; [exact IH0 |].
    apply thenWrite_prefix; [apply writeRune_prefix | exact IH1].
  - apply (thenWrite_prefix _ _ _ _ IH0 IH1).
  - apply (thenWrite_prefix _ _ _ _ IH0 IH1).
Qed.

(** X9.  On a stream that keeps the [io.Writer] contract, [WriteTo] of any
    Unit writes a prefix of the Unit's code points (never anything else,
    never out of order), returns exactly the number of bytes written, and
    when it reports no error the whole Unit was written. *)
Theorem WriteTo_contract (m : Moji) (w w' : W) (n : Z) (e : option error) :
  WriteTo m w = ((n, e), w') ->
  0 <= n <= len (serial m) /\
  out w' = out w ++ take (Z.to_nat n) (serial m) /\
  (e = None -> n = len (serial m) /\ out w' = out w ++ serial m).
Proof.
  intros Hrun. destruct (WriteTo_prefix m _ _ _ _ Hrun) as (Hn & Ho & He).
  split; [exact Hn |]. split; [exact Ho |]. intros Hnone.
  specialize (He Hnone). split; [exact He |].
  rewrite Ho, take_ge by (unfold len in He; lia). reflexivity.
Qed.

End Contract.

Lemma LimitedWriter_lawful : lawful taken.
Proof.
  intros p w n e w' Hrun. unfold Write, LimitedWriter_Writer in Hrun.
  destruct (Nat.leb_spec (length p) (room w)) as [Hfit|Hshort];
    injection Hrun as <- <- <-; cbn [taken].
  - split; [unfold len; lia |]. split; [| reflexivity].
    rewrite take_ge by (unfold len; lia). reflexivity.
  - split; [unfold len; lia |]. split; [| discriminate].
    rewrite Nat2Z.id. reflexivity.
Qed.

(** "a" ZWJ "b" on a stream with room for two bytes. *)
Lemma WriteTo_contract_witness :
  let m := _ZeroWidthJoinSequence (_RawCodePoint 0x61) (_RawCodePoint 0x62) in
  0 <= 2 <= len (serial m) /\
  taken (mkLimited 0 [0x61; 0xE2]) = taken (mkLimited 2 []) ++ take 2 (serial m).
Proof.
  cbv zeta.
  destruct (WriteTo_contract taken LimitedWriter_lawful
              (_ZeroWidthJoinSequence (_RawCodePoint 0x61) (_RawCodePoint 0x62))
              (mkLimited 2 []) (mkLimited 0 [0x61; 0xE2]) 2
              (Some ErrShortWrite) eq_refl) as (Hn & Ho & _).
  split; [exact Hn | exact Ho].
Defined.

(** ** Widths *)

Section Widths.

Variable runeWidth : rune -> WidthT.

Local Abbreviation Width := (Width runeWidth).

(** X10.  With a width table that has no negative entry, no Unit has a
    negative width, and a Unit is never narrower than the code point it
    starts with. *)
Theorem Width_nonneg (m : Moji) :
  (forall r, 0 <= runeWidth r) ->
  0 <= Width m /\ Width (firstCodePoint m) <= Width m.
Proof.
  intros Htab.
  induction m as [c|c|s0 [IH0 IHf0] s1 [IH1 _]|s0 [IH0 IHf0] s1 [IH1 _]
                 |s0 [IH0 IHf0] s1 _]; cbn [firstCodePoint].
  - cbn. specialize (Htab c). lia.
  - cbn. specialize (Htab c). lia.
  - cbn [readline.Width]. fold (Width s0) (Width s1). lia.
  - cbn [readline.Width]. fold (Width s0) (Width s1). lia.
  - cbn [readline.Width]. fold (Width s0).
    destruct s0; lia.
Qed.

End Widths.

Lemma Example_runeWidth_nonneg (r : rune) : 0 <= Example.runeWidth r.
Proof. unfold Example.runeWidth. destruct (r <? 0x1100); lia. Qed.

(** The keycap base "1" U+FE0F under the stand-in width table. *)
Lemma Width_nonneg_witness :
  0 <= Width Example.runeWidth
         (_VariationSequence (_RawCodePoint 0x31) (_RawCodePoint 0xFE0F))
  /\ Width Example.runeWidth (_RawCodePoint 0x31)
     <= Width Example.runeWidth
          (_VariationSequence (_RawCodePoint 0x31) (_RawCodePoint 0xFE0F)).
Proof.
  apply (Width_nonneg Example.runeWidth
           (_VariationSequence (_RawCodePoint 0x31) (_RawCodePoint 0xFE0F))
           Example_runeWidth_nonneg).
Defined.

(** ** UTF-8: decoding what [EncodeRune] wrote *)

Lemma forall_below (P : Z -> bool) (n : nat) :
  forallb P (map Z.of_nat (seq 0 n)) = true ->
  forall a, 0 <= a < Z.of_nat n -> P a = true.
Proof.
  intros Hall a Ha. rewrite forallb_forall in Hall. apply Hall.
  apply in_map_iff. exists (Z.to_nat a). split; [lia |].
  apply in_seq. lia.
Qed.

Lemma lor_disjoint x y k :
  0 <= k -> 0 <= y < 2 ^ k -> Z.lor (x * 2 ^ k) y = x * 2 ^ k + y.
Proof.
  intros Hk Hy. pose proof (Z.add_lor_land (x * 2 ^ k) y) as E.
  assert (Z.land (x * 2 ^ k) y = 0) as E0; [| lia].
  apply Z.bits_inj'. intros n Hn. rewrite Z.land_spec, Z.bits_0.
  destruct (Z.lt_ge_cases n k).
  - rewrite Z.mul_pow2_bits_low by lia. reflexivity.
  - rewrite <- (Z.mod_small y (2 ^ k)) by lia.
    rewrite Z.mod_pow2_bits_high by lia. apply andb_false_r.
Qed.

Lemma land_FF x : Z.land x 0xFF = x mod 256.
Proof. apply (Z.land_ones x 8). lia. Qed.
Lemma land_3F x : Z.land x 0x3F = x mod 64.
Proof. apply (Z.land_ones x 6). lia. Qed.
Lemma land_1F x : Z.land x 0x1F = x mod 32.
Proof. apply (Z.land_ones x 5). lia. Qed.
Lemma land_0F x : Z.land x 0x0F = x mod 16.
Proof. apply (Z.land_ones x 4). lia. Qed.
Lemma land_07 x : Z.land x 0x07 = x mod 8.
Proof. apply (Z.land_ones x 3). lia. Qed.

Lemma lor_80 a : 0 <= a < 64 -> Z.lor 0x80 a = 0x80 + a.
Proof. intros. apply (lor_disjoint 2 a 6); lia. Qed.
Lemma lor_C0 a : 0 <= a < 32 -> Z.lor 0xC0 a = 0xC0 + a.
Proof. intros. apply (lor_disjoint 6 a 5); lia. Qed.
Lemma lor_E0 a : 0 <= a < 16 -> Z.lor 0xE0 a = 0xE0 + a.
Proof. intros. apply (lor_disjoint 14 a 4); lia. Qed.
Lemma lor_F0 a : 0 <= a < 8 -> Z.lor 0xF0 a = 0xF0 + a.
Proof. intros. apply (lor_disjoint 30 a 3); lia. Qed.

Lemma first_spec (b : byte) : 0 <= b < 256 -> utf8.first b = first_chain b.
Proof.
  intros Hb. apply Z.eqb_eq.
  apply (forall_below (fun b => utf8.first b =? first_chain b) 256);
    [vm_compute; reflexivity | lia].
Qed.

Ltac cases_Z :=
  repeat match goal with
         | |- context [?a <? ?b] => destruct (Z.ltb_spec a b); try lia
         | |- context [?a <=? ?b] => destruct (Z.leb_spec a b); try lia
         | |- context [?a =? ?b] => destruct (Z.eqb_spec a b); try lia
         end.

Lemma len_cons {A} (x : A) (l : list A) : len (x :: l) = 1 + len l.
Proof. unfold len. cbn [length]. lia. Qed.

Lemma decode1 (b0 : byte) (rest : list byte) :
  0 <= b0 < 0x80 -> utf8.DecodeRuneInString (b0 :: rest) = (b0, 1).
Proof.
  intros Hb. unfold utf8.DecodeRuneInString.
  rewrite first_spec by lia. unfold first_chain.
  destruct (Z.ltb_spec b0 0x80); [| lia].
  change (utf8.as_ <=? utf8.as_) with true. cbv iota.
  change (Z.shiftr (utf8.int32 (Z.shiftl utf8.as_ 31)) 31) with 0. cbv zeta.
  change (Z.lnot 0) with (-1). rewrite Z.land_m1_r, Z.land_0_r, Z.lor_0_r.
  reflexivity.
Qed.

Ltac norm_closed t :=
  let v := eval vm_compute in t in change t with v.

Ltac first_is c :=
  match goal with
  | |- context [utf8.first ?b] =>
      let Hf := fresh "Hf" in
      assert (Hf : utf8.first b = c)
        by (rewrite first_spec by lia; unfold first_chain; cases_Z;
            reflexivity);
      rewrite Hf; clear Hf
  end;
  norm_closed (utf8.as_ <=? c); cbv iota zeta;
  norm_closed (Z.land c 7);
  norm_closed (utf8.acceptRanges (Z.shiftr c 4));
  cbn [fst snd]; unfold utf8.locb, utf8.hicb.

Lemma decode2 (b0 b1 : byte) (rest : list byte) :
  0xC2 <= b0 <= 0xDF -> 0x80 <= b1 <= 0xBF ->
  utf8.DecodeRuneInString (b0 :: b1 :: rest)
  = (b0 mod 32 * 64 + b1 mod 64, 2).
Proof.
  intros H0 H1. unfold utf8.DecodeRuneInString.
  rewrite !len_cons. pose proof (len_nonneg rest).
  first_is utf8.s1. cases_Z. cbn [orb].
  rewrite land_1F, land_3F, Z.shiftl_mul_pow2 by lia.
  rewrite (lor_disjoint _ _ 6) by (try lia; Z.div_mod_to_equations; lia).
  reflexivity.
Qed.

Ltac finish3 :=
  cases_Z; cbn [orb];
  rewrite land_0F, !land_3F, !Z.shiftl_mul_pow2 by lia;
  rewrite (lor_disjoint _ _ 12) by (try lia; Z.div_mod_to_equations; lia);
  match goal with
  | |- context [Z.lor (?a * 2 ^ 12 + ?b * 2 ^ 6) _] =>
      replace (a * 2 ^ 12 + b * 2 ^ 6) with ((a * 64 + b) * 2 ^ 6) by lia
  end;
  rewrite (lor_disjoint _ _ 6) by (try lia; Z.div_mod_to_equations; lia);
  f_equal; lia.

Lemma decode3 (b0 b1 b2 : byte) (rest : list byte) :
  0xE0 <= b0 <= 0xEF -> second_lo b0 <= b1 <= second_hi b0 ->
  0x80 <= b2 <= 0xBF ->
  utf8.DecodeRuneInString (b0 :: b1 :: b2 :: rest)
  = (b0 mod 16 * 4096 + b1 mod 64 * 64 + b2 mod 64, 3).
Proof.
  intros H0 H1 H2. unfold utf8.DecodeRuneInString.
  rewrite !len_cons. pose proof (len_nonneg rest).
  unfold second_lo, second_hi in H1.
  destruct (Z.eqb_spec b0 0xE0) as [E0|N0];
    [| destruct (Z.eqb_spec b0 0xED) as [ED|ND]].
  - destruct (Z.eqb_spec b0 0xED); [lia |].
    destruct (Z.eqb_spec b0 0xF0); [lia |].
    destruct (Z.eqb_spec b0 0xF4); [lia |].
    first_is utf8.s2. finish3.
  - destruct (Z.eqb_spec b0 0xF0); [lia |].
    destruct (Z.eqb_spec b0 0xF4); [lia |].
    first_is utf8.s4. finish3.
  - destruct (Z.eqb_spec b0 0xF0); [lia |].
    destruct (Z.eqb_spec b0 0xF4); [lia |].
    first_is utf8.s3. finish3.
Qed.

Ltac finish4 :=
  cases_Z; cbn [orb];
  rewrite land_07, !land_3F, !Z.shiftl_mul_pow2 by lia;
  rewrite (lor_disjoint _ _ 18) by (try lia; Z.div_mod_to_equations; lia);
  match goal with
  | |- context [Z.lor (?a * 2 ^ 18 + ?b * 2 ^ 12) (?c * 2 ^ 6)] =>
      replace (Z.lor (a * 2 ^ 18 + b * 2 ^ 12) (c * 2 ^ 6))
        with (Z.lor ((a * 64 + b) * 2 ^ 12) (c * 2 ^ 6)) by (f_equal; lia)
  end;
  rewrite (lor_disjoint _ _ 12) by (try lia; Z.div_mod_to_equations; lia);
  match goal with
  | |- context [Z.lor (?a * 2 ^ 12 + ?b * 2 ^ 6) _] =>
      replace (a * 2 ^ 12 + b * 2 ^ 6) with ((a * 64 + b) * 2 ^ 6) by lia
  end;
  rewrite (lor_disjoint _ _ 6) by (try lia; Z.div_mod_to_equations; lia);
  f_equal; lia.

Lemma decode4 (b0 b1 b2 b3 : byte) (rest : list byte) :
  0xF0 <= b0 <= 0xF4 -> second_lo b0 <= b1 <= second_hi b0 ->
  0x80 <= b2 <= 0xBF -> 0x80 <= b3 <= 0xBF ->
  utf8.DecodeRuneInString (b0 :: b1 :: b2 :: b3 :: rest)
  = (b0 mod 8 * 262144 + b1 mod 64 * 4096 + b2 mod 64 * 64 + b3 mod 64, 4).
Proof.
  intros H0 H1 H2 H3. unfold utf8.DecodeRuneInString.
  rewrite !len_cons. pose proof (len_nonneg rest).
  unfold second_lo, second_hi in H1.
  destruct (Z.eqb_spec b0 0xE0); [lia |].
  destruct (Z.eqb_spec b0 0xED); [lia |].
  destruct (Z.eqb_spec b0 0xF0) as [E0|N0];
    [| destruct (Z.eqb_spec b0 0xF4) as [E4|N4]].
  - destruct (Z.eqb_spec b0 0xF4); [lia |].
    first_is utf8.s5. finish4.
  - first_is utf8.s7. finish4.
  - first_is utf8.s6. finish4.
Qed.

Lemma to_byte_mod x : utf8.to_byte x = x mod 256.
Proof. apply land_FF. Qed.

Ltac arith := try lia; Z.div_mod_to_equations; lia.

Lemma cont_byte x : Z.lor 0x80 (Z.land (utf8.to_byte x) 0x3F) = 0x80 + x mod 64.
Proof.
  rewrite to_byte_mod, land_3F.
  replace ((x mod 256) mod 64) with (x mod 64) by arith.
  apply lor_80. arith.
Qed.

Lemma EncodeRune_forms (r : rune) :
  validRune r ->
  utf8.EncodeRune r =
    if r <=? 0x7F then [r]
    else if r <=? 0x7FF then [0xC0 + r / 64; 0x80 + r mod 64]
    else if r <=? 0xFFFF then
      [0xE0 + r / 4096; 0x80 + (r / 64) mod 64; 0x80 + r mod 64]
    else [0xF0 + r / 262144; 0x80 + (r / 4096) mod 64;
          0x80 + (r / 64) mod 64; 0x80 + r mod 64].
Proof.
  intros [Hr Hs]. unfold utf8.MaxRune in Hr.
  unfold utf8.surrogateMin, utf8.surrogateMax in Hs.
  unfold utf8.EncodeRune, utf8.uint32, utf8.encode3.
  rewrite Z.mod_small by lia.
  unfold utf8.MaxRune, utf8.surrogateMin, utf8.surrogateMax.
  rewrite !cont_byte, !to_byte_mod, !Z.shiftr_div_pow2 by lia.
  change (2 ^ 6) with 64. change (2 ^ 12) with 4096.
  change (2 ^ 18) with 262144.
  destruct (Z.leb_spec r 0x7F).
  { rewrite Z.mod_small by lia. reflexivity. }
  destruct (Z.leb_spec r 0x7FF).
  { rewrite lor_C0 by arith. rewrite (Z.mod_small (r / 64)) by arith.
    reflexivity. }
  destruct (Z.ltb_spec 0x10FFFF r); [lia |].
  destruct (Z.leb_spec 0xD800 r), (Z.leb_spec r 0xDFFF); try lia; cbn [orb andb];
    destruct (Z.leb_spec r 0xFFFF); try lia.
  - rewrite lor_E0 by arith. rewrite (Z.mod_small (r / 4096)) by arith.
    reflexivity.
  - rewrite lor_F0 by arith. rewrite (Z.mod_small (r / 262144)) by arith.
    reflexivity.
  - rewrite lor_E0 by arith. rewrite (Z.mod_small (r / 4096)) by arith.
    reflexivity.
Qed.

Lemma DecodeRune_EncodeRune (r : rune) (rest : list byte) :
  validRune r ->
  utf8.DecodeRuneInString (utf8.EncodeRune r ++ rest)
  = (r, len (utf8.EncodeRune r)).
Proof.
  intros Hv. rewrite (EncodeRune_forms r Hv). destruct Hv as [Hr Hs].
  unfold utf8.MaxRune in Hr.
  unfold utf8.surrogateMin, utf8.surrogateMax in Hs.
  destruct (Z.leb_spec r 0x7F); [| destruct (Z.leb_spec r 0x7FF);
    [| destruct (Z.leb_spec r 0xFFFF)]]; cbn [app].
  - apply decode1. lia.
  - rewrite decode2 by arith. f_equal. arith.
  - rewrite decode3; [f_equal; arith | arith | | arith].
    unfold second_lo, second_hi. cases_Z; arith.
  - rewrite decode4; [f_equal; arith | arith | | arith | arith].
    unfold second_lo, second_hi. cases_Z; arith.
Qed.

Ltac walk :=
  repeat (cbn [orb andb];
          match goal with
          | |- context [match ?l with [] => _ | _ :: _ => _ end] =>
              is_var l; destruct l
          | |- context [?a <? ?b] => destruct (Z.ltb_spec a b); try lia
          | |- context [?a <=? ?b] => destruct (Z.leb_spec a b); try lia
          end).

Ltac to_arith :=
  rewrite ?land_07, ?land_0F, ?land_1F, ?land_3F, ?Z.shiftl_mul_pow2 by lia;
  rewrite ?(lor_disjoint _ _ 18) by arith;
  repeat match goal with
         | |- context [Z.lor (?a * 2 ^ 18 + ?b * 2 ^ 12) (?c * 2 ^ 6)] =>
             replace (Z.lor (a * 2 ^ 18 + b * 2 ^ 12) (c * 2 ^ 6))
               with (Z.lor ((a * 64 + b) * 2 ^ 12) (c * 2 ^ 6))
               by (f_equal; lia)
         end;
  rewrite ?(lor_disjoint _ _ 12) by arith;
  repeat match goal with
         | |- context [Z.lor (?a * 2 ^ 12 + ?b * 2 ^ 6) ?c] =>
             replace (Z.lor (a * 2 ^ 12 + b * 2 ^ 6) c)
               with (Z.lor ((a * 64 + b) * 2 ^ 6) c) by (f_equal; lia)
         end;
  rewrite ?(lor_disjoint _ _ 6) by arith.

Ltac leaf :=
  let E := fresh "E" in
  intros E; injection E as <- <-;
  first
    [ left; reflexivity
    | right; to_arith;
      match goal with
      | |- validRune ?v /\ _ =>
          let Hv := fresh "Hv" in
          assert (Hv : validRune v)
            by (unfold validRune, utf8.MaxRune, utf8.surrogateMin,
                  utf8.surrogateMax; arith);
          split; [exact Hv |];
          rewrite (EncodeRune_forms _ Hv);
          destruct Hv as [? ?];
          cases_Z; try arith;
          eexists; cbn [app]; repeat f_equal; arith
      end ].

Lemma Decode_cases (s : list byte) (r : rune) (k : Z) :
  Forall isByte s ->
  utf8.DecodeRuneInString s = (r, k) ->
  r = utf8.RuneError \/
  (validRune r /\ exists rest, s = utf8.EncodeRune r ++ rest).
Proof.
  intros Hs. destruct s as [|b0 t0].
  { intros E. injection E as <- <-. left. reflexivity. }
  apply Forall_cons in Hs as [Hb0 _]. unfold isByte in Hb0.
  destruct (Z.lt_ge_cases b0 0x80) as [Hasc|Hhi].
  { rewrite decode1 by lia. intros E. injection E as <- <-. right.
    assert (Hv : validRune b0).
    { unfold validRune, utf8.MaxRune, utf8.surrogateMin, utf8.surrogateMax.
      lia. }
    split; [exact Hv |]. exists t0. rewrite (EncodeRune_forms _ Hv).
    destruct (Z.leb_spec b0 0x7F); [reflexivity | lia]. }
  unfold utf8.DecodeRuneInString. rewrite !len_cons.
  pose proof (len_nonneg t0) as Hl0.
  destruct (Z.lt_ge_cases b0 0xC2) as [Hxx|H2].
  { first_is utf8.xx.
    norm_closed (Z.shiftr (utf8.int32 (Z.shiftl utf8.xx 31)) 31).
    change (Z.lnot (-1)) with 0. rewrite Z.land_0_r. leaf. }
  destruct (Z.lt_ge_cases 0xF4 b0) as [Hxx|H4].
  { first_is utf8.xx.
    norm_closed (Z.shiftr (utf8.int32 (Z.shiftl utf8.xx 31)) 31).
    change (Z.lnot (-1)) with 0. rewrite Z.land_0_r. leaf. }
  destruct (Z.lt_ge_cases b0 0xE0) as [Hs1|H3].
  { first_is utf8.s1. walk; leaf. }
  destruct (Z.lt_ge_cases b0 0xF0) as [Hs3|Hs4].
  - destruct (Z.eq_dec b0 0xE0) as [E0|N0];
      [| destruct (Z.eq_dec b0 0xED) as [ED|ND]].
    + first_is utf8.s2. walk; leaf.
    + first_is utf8.s4. walk; leaf.
    + first_is utf8.s3. walk; leaf.
  - destruct (Z.eq_dec b0 0xF0) as [E0|N0];
      [| destruct (Z.eq_dec b0 0xF4) as [E4|N4]].
    + first_is utf8.s5. walk; leaf.
    + first_is utf8.s7. walk; leaf.
    + first_is utf8.s6. walk; leaf.
Qed.

(** ** The string tests [areZeroWidthJoin] and [areEmojiModifier] *)

Lemma validRune_Join_Control (r : rune) :
  unicode.Join_Control r = true -> r = 0x200C \/ r = 0x200D.
Proof.
  unfold unicode.Join_Control. intros H.
  apply andb_true_iff in H as [Hlo Hhi].
  apply Z.leb_le in Hlo. apply Z.leb_le in Hhi. lia.
Qed.

Lemma string_of_runes_cons (r : rune) (rs : list rune) :
  string_of_runes (r :: rs) = utf8.EncodeRune r ++ string_of_runes rs.
Proof. reflexivity. Qed.

(** X11.  On the string of a rune slice whose first rune is a Unicode scalar
    value, the string tests look at that first rune only and agree with
    the rune tests. *)
Theorem are_tests_first_rune (zwj modi : bool) (r : rune) (rs : list rune) :
  validRune r ->
  areZeroWidthJoin zwj (string_of_runes (r :: rs)) = isZeroWidthJoin zwj r /\
  areEmojiModifier modi (string_of_runes (r :: rs)) = isEmojiModifier modi r.
Proof.
  intros Hv. rewrite string_of_runes_cons.
  unfold areZeroWidthJoin, areEmojiModifier.
  rewrite (DecodeRune_EncodeRune r _ Hv). split.
  - destruct zwj; reflexivity.
  - destruct modi; reflexivity.
Qed.

(** X12.  [areZeroWidthJoin] holds exactly when the flag is on and the
    string starts with the UTF-8 bytes of U+200C or of U+200D; never for
    the empty string or a malformed start. *)
Theorem areZeroWidthJoin_iff (zwj : bool) (s : list byte) :
  Forall isByte s ->
  areZeroWidthJoin zwj s = true <->
  zwj = true /\
  exists rest, s = [0xE2; 0x80; 0x8C] ++ rest \/ s = [0xE2; 0x80; 0x8D] ++ rest.
Proof.
  intros Hs. unfold areZeroWidthJoin. split.
  - destruct zwj; [| discriminate]. cbn [negb].
    destruct (utf8.DecodeRuneInString s) as [r k] eqn:Hd. intros Hj.
    split; [reflexivity |]. unfold isZeroWidthJoin in Hj. cbn [andb] in Hj.
    destruct (Decode_cases s r k Hs Hd) as [->|(_ & rest & ->)];
      [discriminate Hj |].
    exists rest.
    destruct (validRune_Join_Control r Hj) as [->| ->]; [left | right];
      reflexivity.
  - intros (-> & rest & [-> | ->]); cbn [negb].
    + change [0xE2; 0x80; 0x8C] with (utf8.EncodeRune 0x200C).
      rewrite DecodeRune_EncodeRune; [reflexivity |].
      unfold validRune, utf8.MaxRune, utf8.surrogateMin, utf8.surrogateMax.
      lia.
    + change [0xE2; 0x80; 0x8D] with (utf8.EncodeRune 0x200D).
      rewrite DecodeRune_EncodeRune; [reflexivity |].
      unfold validRune, utf8.MaxRune, utf8.surrogateMin, utf8.surrogateMax.
      lia.
Qed.

Lemma EncodeRune_modifier (r : rune) :
  0x1F3FB <= r <= 0x1F3FF ->
  utf8.EncodeRune r = [0xF0; 0x9F; 0x8F; r - 0x1F340].
Proof.
  intros Hr.
  assert (Hv : validRune r).
  { unfold validRune, utf8.MaxRune, utf8.surrogateMin, utf8.surrogateMax.
    lia. }
  rewrite (EncodeRune_forms r Hv). cases_Z. repeat f_equal; arith.
Qed.

(** X13.  [areEmojiModifier] holds exactly when the flag is on and the
    string starts with the UTF-8 bytes of one of U+1F3FB..U+1F3FF, that is
    F0 9F 8F followed by a byte BB..BF. *)
Theorem areEmojiModifier_iff (modi : bool) (s : list byte) :
  Forall isByte s ->
  areEmojiModifier modi s = true <->
  modi = true /\
  exists b rest, 0xBB <= b <= 0xBF /\ s = [0xF0; 0x9F; 0x8F; b] ++ rest.
Proof.
  intros Hs. unfold areEmojiModifier. split.
  - destruct modi; [| discriminate]. cbn [negb].
    destruct (utf8.DecodeRuneInString s) as [r k] eqn:Hd. intros Hm.
    split; [reflexivity |]. unfold isEmojiModifier in Hm. cbn [negb] in Hm.
    apply andb_true_iff in Hm as [Hlo Hhi].
    apply Z.leb_le in Hlo. apply Z.leb_le in Hhi.
    destruct (Decode_cases s r k Hs Hd) as [->|(_ & rest & ->)];
      [unfold utf8.RuneError in Hlo; lia |].
    exists (r - 0x1F340), rest. split; [lia |].
    rewrite EncodeRune_modifier by lia. reflexivity.
  - intros (-> & b & rest & Hb & ->). cbn [negb].
    replace b with ((b + 0x1F340) - 0x1F340) by lia.
    rewrite <- EncodeRune_modifier by lia.
    rewrite DecodeRune_EncodeRune.
    + unfold isEmojiModifier. cbn [negb].
      destruct (Z.leb_spec 0x1F3FB (b + 0x1F340)); [| lia].
      destruct (Z.leb_spec (b + 0x1F340) 0x1F3FF); [reflexivity | lia].
    + unfold validRune, utf8.MaxRune, utf8.surrogateMin, utf8.surrogateMax.
      lia.
Qed.

(** ** Runs of the further properties on concrete inputs *)


(** "hi!" with every flag on: three bare code points. *)
Lemma string2moji_plain_witness :
  Example.compose [0x68; 0x69; 0x21]
  = Done [_RawCodePoint 0x68; _RawCodePoint 0x69; _RawCodePoint 0x21].
Proof.
  apply (string2moji_plain true true (Example.isVariationSelectorLike true)
           Example.isWavingWhiteFlagRune 0x68 [0x69; 0x21]).
  repeat (constructor; [repeat split; reflexivity |]). constructor.
Defined.

(** Thumbs-up, then a skin tone typed after it. *)
Lemma string2moji_append_rune_witness :
  exists ms0 x,
    Example.compose [0x1F44D] = Done (ms0 ++ [x]) /\
    Example.compose ([0x1F44D] ++ [0x1F3FD])
    = Done (attachLast (Example.isVariationSelectorLike true)
              (isEmojiModifier true) Example.isWavingWhiteFlagRune
              ms0 x 0x1F3FD).
Proof.
  apply (string2moji_append_rune true true
           (Example.isVariationSelectorLike true)
           Example.isWavingWhiteFlagRune [0x1F44D] 0x1F3FD).
  - discriminate.
  - intros l _ Hlen. unfold len in Hlen. cbn [length] in Hlen. lia.
Defined.

(** The keycap "1" U+FE0F followed by a skin tone: one Unit, two layers. *)
Lemma string2moji_stack_witness :
  Example.compose [0x31; 0xFE0F; 0x1F3FD]
  = Done [_ModifierSequence
            (_VariationSequence (_RawCodePoint 0x31) (_RawCodePoint 0xFE0F))
            (_RawCodePoint 0x1F3FD)].
Proof.
  apply (string2moji_stack true true (Example.isVariationSelectorLike true)
           Example.isWavingWhiteFlagRune 0x31 [0xFE0F; 0x1F3FD]).
  constructor; [split; [reflexivity | left; reflexivity] |].
  constructor; [split; [reflexivity | right; reflexivity] |].
  constructor.
Defined.

(** The string U+200D "a": the joiner test sees the first rune. *)
Lemma are_tests_first_rune_witness :
  areZeroWidthJoin true (string_of_runes [0x200D; 0x61])
  = isZeroWidthJoin true 0x200D
  /\ areEmojiModifier true (string_of_runes [0x200D; 0x61])
     = isEmojiModifier true 0x200D.
Proof.
  apply (are_tests_first_rune true true 0x200D [0x61]).
  unfold validRune, utf8.MaxRune, utf8.surrogateMin, utf8.surrogateMax. lia.
Defined.

Lemma isByte_bytes_E2_80_8D_61 : Forall isByte [0xE2; 0x80; 0x8D; 0x61].
Proof. repeat (constructor; [unfold isByte; lia |]). constructor. Qed.

(** U+200D "a" as bytes. *)
Lemma areZeroWidthJoin_iff_witness :
  areZeroWidthJoin true [0xE2; 0x80; 0x8D; 0x61] = true.
Proof.
  apply (proj2 (areZeroWidthJoin_iff true [0xE2; 0x80; 0x8D; 0x61]
                  isByte_bytes_E2_80_8D_61)).
  split; [reflexivity |]. exists [0x61]. right. reflexivity.
Defined.

Lemma isByte_bytes_F0_9F_8F_BD : Forall isByte [0xF0; 0x9F; 0x8F; 0xBD].
Proof. repeat (constructor; [unfold isByte; lia |]). constructor. Qed.

(** U+1F3FD as bytes. *)
Lemma areEmojiModifier_iff_witness :
  areEmojiModifier true [0xF0; 0x9F; 0x8F; 0xBD] = true.
Proof.
  apply (proj2 (areEmojiModifier_iff true [0xF0; 0x9F; 0x8F; 0xBD]
                  isByte_bytes_F0_9F_8F_BD)).
  split; [reflexivity |]. exists 0xBD, []. split; [lia | reflexivity].
Defined.

(** ** Gating by the capability flags, on every input *)

Section Gating.

Variable ZeroWidthJoinSequenceOk : bool.
Variable ModifierSequenceOk : bool.
Variable isVariationSelectorLike : rune -> bool.
Variable isWavingWhiteFlagRune : rune -> bool.

Local Abbreviation isZeroWidthJoin := (isZeroWidthJoin ZeroWidthJoinSequenceOk).
Local Abbreviation isEmojiModifier := (isEmojiModifier ModifierSequenceOk).
Local Abbreviation rune2moji := (rune2moji isWavingWhiteFlagRune).
Local Abbreviation string2moji :=
  (string2moji ZeroWidthJoinSequenceOk ModifierSequenceOk
     isVariationSelectorLike isWavingWhiteFlagRune).
Local Abbreviation reachable :=
  (reachable ZeroWidthJoinSequenceOk ModifierSequenceOk
     isVariationSelectorLike isWavingWhiteFlagRune).

Lemma reachable_Forall (P : Moji -> Prop) runes i mojis :
  (forall r, P (rune2moji r)) ->
  (forall x r r1, isZeroWidthJoin r = true -> P x ->
                  P (_ZeroWidthJoinSequence x (_RawCodePoint r1))) ->
  (forall x r, isVariationSelectorLike r = true -> P x ->
               P (_VariationSequence x (_RawCodePoint r))) ->
  (forall x r, isEmojiModifier r = true -> P x ->
               P (_ModifierSequence x (_RawCodePoint r))) ->
  reachable runes i mojis -> Forall P mojis.
Proof.
  intros Hleaf Hjoin Hvar Hmod.
  induction 1 as [|i mojis i' mojis' Hr IH Hlt Hb]; [constructor |].
  destruct (reachable_step _ _ _ _ _ _ _ Hr Hlt) as (j & ms & Hb' & Hbr & _).
  rewrite Hb in Hb'. injection Hb' as <- <-.
  destruct Hbr as [r r1 ms x _ _ Hj _ ->|r ms x _ Hv _ ->
                  |r ms x _ Hm _ ->|r _];
    try (apply Forall_app in IH as [Hms Hx];
         pose proof (proj1 (Forall_singleton _ _) Hx) as Hx';
         apply Forall_app; split; [exact Hms |]; apply Forall_singleton;
         eauto).
  apply Forall_app; split; [exact IH |]. apply Forall_singleton. apply Hleaf.
Qed.

Lemma rune2moji_codePoint r : isCodePoint (rune2moji r) = true.
Proof.
  unfold readline.rune2moji. destruct (isWavingWhiteFlagRune r); reflexivity.
Qed.

(** X7.  A rule that is switched off leaves no trace in the output, for
    every input: no [_ZeroWidthJoinSequence] anywhere when
    [ZeroWidthJoinSequenceOk] is false, no [_ModifierSequence] when
    [ModifierSequenceOk] is false, no [_VariationSequence] when
    [isVariationSelectorLike] rejects every rune. *)
Theorem string2moji_gating (runes : list rune) :
  exists ms,
    string2moji runes = Done ms /\
    (ZeroWidthJoinSequenceOk = false ->
     Forall (fun m => hasZeroWidthJoin m = false) ms) /\
    (ModifierSequenceOk = false ->
     Forall (fun m => hasModifier m = false) ms) /\
    ((forall r, isVariationSelectorLike r = false) ->
     Forall (fun m => hasVariation m = false) ms).
Proof.
  destruct (string2moji_reaches ZeroWidthJoinSequenceOk ModifierSequenceOk
              isVariationSelectorLike isWavingWhiteFlagRune runes)
    as (ms & j & Hrun & Hreach & _).
  assert (Hleaf : forall (h : Moji -> bool) m,
            isCodePoint m = true ->
            (forall c, h (_RawCodePoint c) = false) ->
            (forall c, h (_WavingWhiteFlagCodePoint c) = false) ->
            h m = false).
  { intros h [c|c|? ?|? ?|? ?] Hc Hraw Hflag; try discriminate Hc; auto. }
  exists ms. split; [exact Hrun |]. split; [| split].
  - intros Hoff. apply (reachable_Forall _ _ _ _) with (5 := Hreach).
    + intros r. apply Hleaf; [apply rune2moji_codePoint | |]; reflexivity.
    + intros x r r1 Hj _. unfold readline.isZeroWidthJoin in Hj.
      rewrite Hoff in Hj. discriminate Hj.
    + intros x r _ Hx. cbn [hasZeroWidthJoin]. rewrite Hx. reflexivity.
    + intros x r _ Hx. cbn [hasZeroWidthJoin]. rewrite Hx. reflexivity.
  - intros Hoff. apply (reachable_Forall _ _ _ _) with (5 := Hreach).
    + intros r. apply Hleaf; [apply rune2moji_codePoint | |]; reflexivity.
    + intros x r r1 _ Hx. cbn [hasModifier]. rewrite Hx. reflexivity.
    + intros x r _ Hx. cbn [hasModifier]. rewrite Hx. reflexivity.
    + intros x r Hm _. unfold readline.isEmojiModifier in Hm.
      rewrite Hoff in Hm. discriminate Hm.
  - intros Hoff. apply (reachable_Forall _ _ _ _) with (5 := Hreach).
    + intros r. apply Hleaf; [apply rune2moji_codePoint | |]; reflexivity.
    + intros x r r1 _ Hx. cbn [hasVariation]. rewrite Hx. reflexivity.
    + intros x r Hv _. rewrite Hoff in Hv. discriminate Hv.
    + intros x r _ Hx. cbn [hasVariation]. rewrite Hx. reflexivity.
Qed.

End Gating.

(** Thumbs-up, skin tone, ZWJ, "b" with only the modifier rule on. *)
Lemma string2moji_gating_witness :
  exists ms,
    string2moji false true (fun _ => false) Example.isWavingWhiteFlagRune
      [0x1F44D; 0x1F3FD; 0x200D; 0x62] = Done ms /\
    Forall (fun m => hasZeroWidthJoin m = false) ms /\
    Forall (fun m => hasVariation m = false) ms.
Proof.
  destruct (string2moji_gating false true (fun _ => false)
              Example.isWavingWhiteFlagRune
              [0x1F44D; 0x1F3FD; 0x200D; 0x62])
    as (ms & Hrun & Hz & _ & Hv).
  exists ms. split; [exact Hrun |]. split.
  - apply Hz. reflexivity.
  - apply Hv. reflexivity.
Defined.
